(** * hcipy.atmosphere.atmospheric_model: a shallow embedding

    The module [atmospheric_model.py] defines the abstract
    [AtmosphericLayer], the composite [MultiLayerAtmosphere] and the
    closed-form Von Karman statistics with the conversions between Fried
    parameter, integrated Cn^2 and seeing.

    Python objects are kept in an explicit store: layers and wavefronts are
    referred to by location, so that two names for one object stay one
    object.  Exceptions are values of [exn]; a method is a function from the
    store to the store after the call and its outcome.  Floating-point
    numbers are idealised as real numbers; heights are integers, of which
    the code asks the order, the difference and the sign only.

    Embedded: the constructor, the property setters and getters,
    [phase_for], [forward] and [backward] of [AtmosphericLayer];
    [__init__], [calculate_propagators], the [layers], [scintillation] and
    [Cn_squared] properties, [phase_for], [forward] and [backward] of
    [MultiLayerAtmosphere]; [power_spectral_density_von_karman] and the four
    conversions, in the first part; in the second the rest of the module:
    [evolve_until], [reset], [t] and [velocity] of the layer, [reset],
    [evolve_until], [t] and [outer_scale] of the composite, and the phase
    covariance and structure function, with the gamma and Bessel functions
    of scipy taken as given. *)

From Stdlib Require Import String.
From Stdlib Require Import List ZArith Reals Lia Lra Bool Arith.
From Stdlib Require Import Permutation Sorted.
Import ListNotations.

Set Implicit Arguments.

(** ** Exceptions and the state-and-exception monad *)

Inductive exn : Type :=
| NotImplementedError
| IndexError
| AttributeError
| TypeError
| ValueError (msg : string)
| NonFinite.  (* a float left the real line (inf or nan): outside this model *)

Inductive result (A : Type) : Type :=
| Ok (a : A)
| Raise (e : exn).
Arguments Ok {A} a.
Arguments Raise {A} e.

Definition rbind {A B} (r : result A) (k : A -> result B) : result B :=
  match r with
  | Ok a => k a
  | Raise e => Raise e
  end.

(** A computation over a mutable store [S]: the store survives an
    exception, as it does in Python. *)
Definition M (S A : Type) : Type := S -> S * result A.

Definition ret {S A} (a : A) : M S A := fun s => (s, Ok a).
Definition raise {S A} (e : exn) : M S A := fun s => (s, Raise e).
Definition bind {S A B} (c : M S A) (k : A -> M S B) : M S B :=
  fun s => match c s with
           | (s', Ok a) => k a s'
           | (s', Raise e) => (s', Raise e)
           end.
Definition get {S} : M S S := fun s => (s, Ok s).
Definition modify {S} (f : S -> S) : M S unit := fun s => (f s, Ok tt).
Definition lift {S A} (r : result A) : M S A := fun s => (s, r).

Declare Scope monad_scope.
Delimit Scope monad_scope with monad.
Notation "x <- c ;; k" := (bind c (fun x => k))
  (at level 61, c at next level, right associativity) : monad_scope.
Notation "c ;; k" := (bind c (fun _ => k))
  (at level 61, right associativity) : monad_scope.
Notation "x <~ r ;; k" := (rbind r (fun x => k))
  (at level 61, r at next level, right associativity) : monad_scope.
Open Scope monad_scope.

(** A [for] loop over a Python list. *)
Fixpoint for_each {S A} (xs : list A) (body : A -> M S unit) : M S unit :=
  match xs with
  | [] => ret tt
  | x :: xs' => body x ;; for_each xs' body
  end.

(** A list comprehension whose element expression may raise. *)
Fixpoint comprehension {A B} (f : A -> result B) (xs : list A) : result (list B) :=
  match xs with
  | [] => Ok []
  | x :: xs' => y <~ f x ;; ys <~ comprehension f xs' ;; Ok (y :: ys)
  end.

(** ** Python and numpy primitives used by the module *)

Definition loc := nat.

(** [xs[i]] for a non-negative index. *)
Definition getitem {A} (xs : list A) (i : nat) : result A :=
  match nth_error xs i with
  | Some x => Ok x
  | None => Raise IndexError
  end.

(** [xs[-1]]. *)
Definition getlast {A} (xs : list A) : result A :=
  match xs with
  | [] => Raise IndexError
  | x :: xs' => Ok (last xs' x)
  end.

(** [a[:-1]] and [a[1:]] are [removelast] and [tl]; the difference of two
    arrays of one length is taken element by element. *)
Fixpoint zip_with {A B C} (f : A -> B -> C) (xs : list A) (ys : list B) : list C :=
  match xs, ys with
  | x :: xs', y :: ys' => f x y :: zip_with f xs' ys'
  | _, _ => []
  end.

(** Modelled from the spec: [numpy.argsort] is not part of this repository,
    and the call names no [kind], so that the order among equal keys is
    numpy's to choose.  The spec has the indices sorted with ties broken by
    input order (a stable sort); this is the insertion of every index, from
    the last to the first, in front of the indices whose key is not
    smaller. *)
Fixpoint insert_index (key : nat -> Z) (j : nat) (sorted : list nat) : list nat :=
  match sorted with
  | [] => [j]
  | k :: rest =>
      if (key j <=? key k)%Z then j :: sorted
      else k :: insert_index key j rest
  end.

Definition argsort (keys : list Z) : list nat :=
  fold_right (insert_index (fun i => nth i keys 0%Z)) [] (seq 0 (length keys)).

(** [a[indices]] with an index array (every index is in range here). *)
Definition take (a : list Z) (indices : list nat) : list Z :=
  map (fun j => nth j a 0%Z) indices.

(** ** Collaborators: grids, fields, wavefronts *)

(** Modelled from the spec: the grid is an external abstraction; this module
    reads only its polar radial coordinate, [grid.as_('polar').r]. *)
Record Grid : Type := { polar_r : list R }.

Record Field : Type := { values : list R; grid : Grid }.

(** Complex numbers as pairs, for the electric field. *)
Definition C : Type := (R * R)%type.
Definition RtoC (x : R) : C := (x, 0%R).
Definition Ci : C := (0%R, 1%R).
Definition Cneg_i : C := (0%R, (-1)%R).
Definition Cmul (a b : C) : C :=
  (fst a * fst b - snd a * snd b, fst a * snd b + snd a * fst b)%R.
Definition Cexp (a : C) : C :=
  (exp (fst a) * cos (snd a), exp (fst a) * sin (snd a))%R.

(** Modelled from the spec: a wavefront has a wavelength, a complex electric
    field and [copy()]; the other attributes are copied along and not read
    here. *)
Record Wavefront : Type := {
  electric_field : list C;
  wavelength : R
}.

(** ** Layer objects *)

(** A scalar argument as Python passes it: [None], [np.inf] or a float. *)
Inductive pyfloat : Type :=
| PyNone
| PyInf
| PyFloat (x : R).

Definition as_real (v : pyfloat) : result R :=
  match v with
  | PyFloat x => Ok x
  | PyNone => Raise TypeError
  | PyInf => Raise NonFinite
  end.

Inductive velocity_arg : Type :=
| Scalar (v : R)
| ArrayLike (v : list R).

(** The attributes of a layer.  [_Cn_squared] and [_outer_scale] are only
    ever assigned by a subclass: [None] here is an attribute that does not
    exist.  For [_velocity], [None] is the Python value. *)
Record LayerState : Type := {
  input_grid : Grid;
  _Cn_squared : option pyfloat;
  _outer_scale : option pyfloat;
  _velocity : option (list R);
  height : Z;
  layer_t : R
}.

Definition setter : Type := LayerState -> pyfloat -> result LayerState.

(** The methods a class of layers may override; [None] is a method
    inherited from [AtmosphericLayer]. *)
Record LayerClass : Type := {
  Cn_squared_setter : option setter;
  outer_scale_setter : option setter;
  L0_setter : option setter;
  phase_for_method : option (LayerState -> R -> Field)
}.

Record LayerObj : Type := {
  class_of : LayerClass;
  state_of : LayerState
}.

(** The two abstract methods that act in time, kept beside the class: what
    the class of a layer provides for [evolve_until] and [reset], each
    acting on the state of its own object; [None] is the method inherited
    from [AtmosphericLayer]. *)
Record LayerDynamics : Type := {
  evolve_until_method : option (LayerState -> R -> result LayerState);
  reset_method : option (LayerState -> result LayerState)
}.

(** ** The composite and the store *)

Inductive Element : Type :=
| LayerElement (l : loc)
| FresnelPropagator (g : Grid) (distance : Z).

Record Atmosphere : Type := {
  _layers : list loc;
  _scintillation : bool;
  _t : R;
  _dirty : bool;
  elements : list Element
}.

(** The store: the [MultiLayerAtmosphere] object under consideration, the
    layer objects, the wavefront objects with the next free location, and
    the warnings issued so far. *)
Record World : Type := {
  atmosphere : Atmosphere;
  layer_at : loc -> LayerObj;
  wavefront_at : loc -> Wavefront;
  next_wavefront : loc;
  warnings : list string
}.

Definition update {A} (f : loc -> A) (l : loc) (a : A) : loc -> A :=
  fun l' => if Nat.eqb l' l then a else f l'.

Definition with_atmosphere (f : Atmosphere -> Atmosphere) (w : World) : World :=
  {| atmosphere := f (atmosphere w);
     layer_at := layer_at w;
     wavefront_at := wavefront_at w;
     next_wavefront := next_wavefront w;
     warnings := warnings w |}.

Definition with_layer (l : loc) (s : LayerState) (w : World) : World :=
  {| atmosphere := atmosphere w;
     layer_at := update (layer_at w) l
                   {| class_of := class_of (layer_at w l); state_of := s |};
     wavefront_at := wavefront_at w;
     next_wavefront := next_wavefront w;
     warnings := warnings w |}.

Definition with_wavefront (l : loc) (wf : Wavefront) (w : World) : World :=
  {| atmosphere := atmosphere w;
     layer_at := layer_at w;
     wavefront_at := update (wavefront_at w) l wf;
     next_wavefront := next_wavefront w;
     warnings := warnings w |}.

Definition warn (msg : string) : M World unit :=
  modify (fun w =>
    {| atmosphere := atmosphere w;
       layer_at := layer_at w;
       wavefront_at := wavefront_at w;
       next_wavefront := next_wavefront w;
       warnings := warnings w ++ [msg] |}).

(** Modelled from the spec: [wavefront.copy()] gives a new object with the
    same contents. *)
Definition copy (wf : loc) : M World loc :=
  fun w =>
    let l := next_wavefront w in
    ({| atmosphere := atmosphere w;
        layer_at := layer_at w;
        wavefront_at := update (wavefront_at w) l (wavefront_at w wf);
        next_wavefront := S l;
        warnings := warnings w |}, Ok l).

(** [a *= b] on one-dimensional arrays: [b] has the length of [a], or is
    broadcast from length one; numpy refuses anything else. *)
Definition imul (a b : list C) : result (list C) :=
  if Nat.eqb (length b) (length a) then Ok (zip_with Cmul a b)
  else match b with
       | [z] => Ok (map (fun x => Cmul x z) a)
       | _ => Raise (ValueError "operands could not be broadcast together")
       end.

(** [np.sum(rows, axis=0)]: the rows are stacked, which needs one length,
    and added in sequence.  Of no rows the sum is the scalar zero. *)
Definition np_sum_axis0 (rows : list (list R)) : result (list R) :=
  match rows with
  | [] => Ok []
  | r :: rest =>
      if forallb (fun r' => Nat.eqb (length r') (length r)) rest
      then Ok (fold_left (zip_with Rplus) rest r)
      else Raise (ValueError "inhomogeneous shape")
  end.

(** A float division; a zero divisor gives inf or nan in numpy. *)
Definition divide (x y : R) : result R :=
  if Req_dec_T y 0%R then Raise NonFinite else Ok (x / y)%R.

(** ** class AtmosphericLayer *)

Module AtmosphericLayer.

(** The class itself: nothing is overridden. *)
Definition base : LayerClass :=
  {| Cn_squared_setter := None;
     outer_scale_setter := None;
     L0_setter := None;
     phase_for_method := None |}.

Definition get_Cn_squared (self : LayerState) : result pyfloat :=
  match _Cn_squared self with
  | Some v => Ok v
  | None => Raise AttributeError
  end.

Definition set_Cn_squared (K : LayerClass) : setter :=
  match Cn_squared_setter K with
  | Some f => f
  | None => fun _ _ => Raise NotImplementedError
  end.

Definition get_outer_scale (self : LayerState) : result pyfloat :=
  match _outer_scale self with
  | Some v => Ok v
  | None => Raise AttributeError
  end.

Definition set_outer_scale (K : LayerClass) : setter :=
  match outer_scale_setter K with
  | Some f => f
  | None => fun _ _ => Raise NotImplementedError
  end.

Definition get_L0 (self : LayerState) : result pyfloat :=
  get_outer_scale self.

(** [self.outer_scale = L0] finds the setter of the object's class. *)
Definition set_L0 (K : LayerClass) : setter :=
  match L0_setter K with
  | Some f => f
  | None => fun self L0 => set_outer_scale K self L0
  end.

Definition set_velocity (self : LayerState) (velocity : velocity_arg) : LayerState :=
  {| input_grid := input_grid self;
     _Cn_squared := _Cn_squared self;
     _outer_scale := _outer_scale self;
     _velocity := match velocity with
                  | Scalar v => Some [v; 0%R]
                  | ArrayLike v => Some v
                  end;
     height := height self;
     layer_t := layer_t self |}.

(** [__init__] on the object [self] that the class has just allocated.
    Its attributes are assigned in the order of the source. *)
Definition __init__ (K : LayerClass) (self : LayerState)
    (input_grid0 : Grid) (Cn_squared L0 : pyfloat)
    (velocity : velocity_arg) (height0 : Z) : result LayerState :=
  let self := {| input_grid := input_grid0;
                 _Cn_squared := _Cn_squared self;
                 _outer_scale := _outer_scale self;
                 _velocity := _velocity self;
                 height := height self;
                 layer_t := layer_t self |} in
  self <~ set_Cn_squared K self Cn_squared ;;
  self <~ set_L0 K self L0 ;;
  let self := {| input_grid := input_grid self;
                 _Cn_squared := _Cn_squared self;
                 _outer_scale := _outer_scale self;
                 _velocity := None;
                 height := height self;
                 layer_t := layer_t self |} in
  let self := set_velocity self velocity in
  Ok {| input_grid := input_grid self;
        _Cn_squared := _Cn_squared self;
        _outer_scale := _outer_scale self;
        _velocity := _velocity self;
        height := height0;
        layer_t := 0%R |}.

Definition phase_for (K : LayerClass) (self : LayerState) (wavelength0 : R) : result Field :=
  match phase_for_method K with
  | Some f => Ok (f self wavelength0)
  | None => Raise NotImplementedError
  end.

Definition output_grid (self : LayerState) : Grid := input_grid self.

(** [wf = wf.copy(); wf.electric_field *= np.exp(1j * phase); return wf] *)
Definition forward (l : loc) (wf : loc) : M World loc :=
  wf <- copy wf ;;
  w <- get ;;
  let layer := layer_at w l in
  let field := electric_field (wavefront_at w wf) in
  phase <- lift (phase_for (class_of layer) (state_of layer)
                   (wavelength (wavefront_at w wf))) ;;
  field <- lift (imul field
                   (map (fun p => Cexp (Cmul Ci (RtoC p))) (values phase))) ;;
  modify (fun w => with_wavefront wf
                     {| electric_field := field;
                        wavelength := wavelength (wavefront_at w wf) |} w) ;;
  ret wf.

Definition backward (l : loc) (wf : loc) : M World loc :=
  wf <- copy wf ;;
  w <- get ;;
  let layer := layer_at w l in
  let field := electric_field (wavefront_at w wf) in
  phase <- lift (phase_for (class_of layer) (state_of layer)
                   (wavelength (wavefront_at w wf))) ;;
  field <- lift (imul field
                   (map (fun p => Cexp (Cmul Cneg_i (RtoC p))) (values phase))) ;;
  modify (fun w => with_wavefront wf
                     {| electric_field := field;
                        wavelength := wavelength (wavefront_at w wf) |} w) ;;
  ret wf.

Definition evolve_until (D : LayerDynamics) (self : LayerState) (t : R)
    : result LayerState :=
  match evolve_until_method D with
  | Some f => f self t
  | None => Raise NotImplementedError
  end.

Definition reset (D : LayerDynamics) (self : LayerState) : result LayerState :=
  match reset_method D with
  | Some f => f self
  | None => Raise NotImplementedError
  end.

Definition get_t (self : LayerState) : R := layer_t self.

Definition set_t (D : LayerDynamics) (self : LayerState) (t : R) : result LayerState :=
  evolve_until D self t.

Definition get_velocity (self : LayerState) : option (list R) := _velocity self.

End AtmosphericLayer.

(** ** class MultiLayerAtmosphere *)

(** The free-space propagator between layers is an external operator built
    from a grid and a distance; its two directions are taken as given. *)
Record Propagation : Type := {
  fresnel_forward : Grid -> Z -> loc -> M World loc;
  fresnel_backward : Grid -> Z -> loc -> M World loc
}.

Module MultiLayerAtmosphere.

Definition scintillation_error : exn :=
  ValueError "Cannot get the unwrapped phase for an atmosphere with scintillation.".

Definition spelling_warning : string :=
  "Please use the correct spelling for scintillation.".

Definition get_layers (w : World) : list loc := _layers (atmosphere w).

Definition set_layers (layers : list loc) : M World unit :=
  modify (with_atmosphere (fun self =>
    {| _layers := layers;
       _scintillation := _scintillation self;
       _t := _t self;
       _dirty := true;
       elements := elements self |})).

Definition get_scintillation (w : World) : bool := _scintillation (atmosphere w).

Definition set_scintillation (scintillation : bool) : M World unit :=
  modify (with_atmosphere (fun self =>
    {| _layers := _layers self;
       _scintillation := scintillation;
       _t := _t self;
       _dirty := negb (Bool.eqb scintillation (_scintillation self));
       elements := elements self |})).

Definition set_elements (els : list Element) : M World unit :=
  modify (with_atmosphere (fun self =>
    {| _layers := _layers self;
       _scintillation := _scintillation self;
       _t := _t self;
       _dirty := _dirty self;
       elements := els |})).

Definition append_element (el : Element) : M World unit :=
  modify (with_atmosphere (fun self =>
    {| _layers := _layers self;
       _scintillation := _scintillation self;
       _t := _t self;
       _dirty := _dirty self;
       elements := elements self ++ [el] |})).

Definition set_dirty (b : bool) : M World unit :=
  modify (with_atmosphere (fun self =>
    {| _layers := _layers self;
       _scintillation := _scintillation self;
       _t := _t self;
       _dirty := b;
       elements := elements self |})).

Definition enumerate {A} (xs : list A) : list (nat * A) :=
  combine (seq 0 (length xs)) xs.

(** [propagators] is bound only when scintillation is on, and read only
    then: the empty list stands for the unbound name. *)
Definition calculate_propagators : M World unit :=
  w <- get ;;
  let layers := get_layers w in
  let scintillation := get_scintillation w in
  let heights := map (fun l => height (state_of (layer_at w l))) layers in
  let layer_indices := argsort (map Z.opp heights) in
  let sorted_heights := take heights layer_indices in
  let delta_heights :=
    zip_with Z.sub (removelast sorted_heights) (tl sorted_heights) in
  l0 <- lift (getitem layers 0) ;;
  let grid := input_grid (state_of (layer_at w l0)) in
  let propagators :=
    if scintillation then map (FresnelPropagator grid) delta_heights else [] in
  set_elements [] ;;
  for_each (enumerate layer_indices) (fun ij =>
    lj <- lift (getitem layers (snd ij)) ;;
    append_element (LayerElement lj) ;;
    if scintillation && (fst ij <? length propagators)
    then p <- lift (getitem propagators (fst ij)) ;; append_element p
    else ret tt) ;;
  (if scintillation
   then h <- lift (getlast sorted_heights) ;;
        if (0 <? h)%Z then append_element (FresnelPropagator grid h) else ret tt
   else ret tt) ;;
  set_dirty false.

Definition __init__ (layers : list loc) (scintillation : bool)
    (scintilation : option bool) : M World unit :=
  scintillation <-
    match scintilation with
    | Some legacy => warn spelling_warning ;; ret legacy
    | None => ret scintillation
    end ;;
  set_layers layers ;;
  modify (with_atmosphere (fun self =>
    {| _layers := _layers self;
       _scintillation := scintillation;
       _t := 0%R;
       _dirty := true;
       elements := elements self |})) ;;
  calculate_propagators.

Definition phase_for (wavelength0 : R) : M World Field :=
  w <- get ;;
  if get_scintillation w then raise scintillation_error
  else
    unwrapped_phases <-
      lift (comprehension
              (fun l => AtmosphericLayer.phase_for (class_of (layer_at w l))
                          (state_of (layer_at w l)) wavelength0)
              (get_layers w)) ;;
    total <- lift (np_sum_axis0 (map values unwrapped_phases)) ;;
    last_phase <- lift (getlast unwrapped_phases) ;;
    ret {| values := total; grid := grid last_phase |}.

Definition layer_Cn_squared (w : World) (l : loc) : result R :=
  v <~ AtmosphericLayer.get_Cn_squared (state_of (layer_at w l)) ;; as_real v.

Definition get_Cn_squared : M World R :=
  w <- get ;;
  strengths <- lift (comprehension (layer_Cn_squared w) (get_layers w)) ;;
  ret (fold_left Rplus strengths 0%R).

Definition set_Cn_squared (Cn_squared : R) : M World unit :=
  old_Cn_squared <- get_Cn_squared ;;
  w <- get ;;
  for_each (get_layers w) (fun l =>
    w <- get ;;
    c <- lift (layer_Cn_squared w l) ;;
    q <- lift (divide c old_Cn_squared) ;;
    s <- lift (AtmosphericLayer.set_Cn_squared (class_of (layer_at w l))
                 (state_of (layer_at w l)) (PyFloat (q * Cn_squared))) ;;
    modify (with_layer l s)).

Section Traversal.
Variable P : Propagation.

Definition element_forward (el : Element) (wf : loc) : M World loc :=
  match el with
  | LayerElement l => AtmosphericLayer.forward l wf
  | FresnelPropagator g d => fresnel_forward P g d wf
  end.

Definition element_backward (el : Element) (wf : loc) : M World loc :=
  match el with
  | LayerElement l => AtmosphericLayer.backward l wf
  | FresnelPropagator g d => fresnel_backward P g d wf
  end.

Fixpoint through (step : Element -> loc -> M World loc)
    (els : list Element) (wf : loc) : M World loc :=
  match els with
  | [] => ret wf
  | el :: els' => wf <- step el wf ;; through step els' wf
  end.

Definition forward (wavefront : loc) : M World loc :=
  w <- get ;;
  (if _dirty (atmosphere w) then calculate_propagators else ret tt) ;;
  wf <- copy wavefront ;;
  w <- get ;;
  through element_forward (elements (atmosphere w)) wf.

Definition backward (wavefront : loc) : M World loc :=
  w <- get ;;
  (if _dirty (atmosphere w) then calculate_propagators else ret tt) ;;
  wf <- copy wavefront ;;
  w <- get ;;
  through element_backward (rev (elements (atmosphere w))) wf.
End Traversal.

Section Time.
(** [dynamics l] is what the class of the layer at [l] provides. *)
Variable dynamics : loc -> LayerDynamics.

Definition reset : M World unit :=
  w <- get ;;
  for_each (get_layers w) (fun l =>
    w <- get ;;
    s <- lift (AtmosphericLayer.reset (dynamics l) (state_of (layer_at w l))) ;;
    modify (with_layer l s)).

Definition evolve_until (t : R) : M World unit :=
  w <- get ;;
  for_each (get_layers w) (fun l =>
    w <- get ;;
    s <- lift (AtmosphericLayer.evolve_until (dynamics l) (state_of (layer_at w l)) t) ;;
    modify (with_layer l s)) ;;
  modify (with_atmosphere (fun self =>
    {| _layers := _layers self;
       _scintillation := _scintillation self;
       _t := t;
       _dirty := _dirty self;
       elements := elements self |})).

Definition get_t (w : World) : R := _t (atmosphere w).

Definition set_t (t : R) : M World unit := evolve_until t.
End Time.

Definition get_outer_scale : M World pyfloat :=
  w <- get ;;
  l0 <- lift (getitem (get_layers w) 0) ;;
  lift (AtmosphericLayer.get_outer_scale (state_of (layer_at w l0))).

Definition set_outer_scale (L0 : pyfloat) : M World unit :=
  w <- get ;;
  for_each (get_layers w) (fun l =>
    w <- get ;;
    s <- lift (AtmosphericLayer.set_outer_scale (class_of (layer_at w l))
                 (state_of (layer_at w l)) L0) ;;
    modify (with_layer l s)).

End MultiLayerAtmosphere.

(** ** Von Karman statistics and conversions *)

Open Scope R_scope.

(** [x ** y] with a fractional exponent is [Rpower x y], which is the float
    power on a positive base; [x ** 2] is [x ^ 2]. *)

(** [np.radians] and [np.degrees]. *)
Definition radians (x : R) : R := x * (PI / 180).
Definition degrees (x : R) : R := x * (180 / PI).

Definition default_wavelength : R := 500e-9.

(** [scipy.special.gamma] and [scipy.special.kv] are taken as given. *)
Section VonKarman.
Variable gamma : R -> R.
Variable kv : R -> R -> R.

Definition phase_covariance_von_karman (r0 L0 : R) : Grid -> Field :=
  fun grid0 =>
    let r := map (fun r => r + 1e-10) (polar_r grid0) in
    let a := Rpower (L0 / r0) (5 / 3) in
    let b := gamma (11 / 6) / (Rpower 2 (5 / 6) * Rpower PI (8 / 3)) in
    let c := Rpower (24 / 5 * gamma (6 / 5)) (5 / 6) in
    let d := map (fun r => Rpower (2 * PI * r / L0) (5 / 6)) r in
    let e := map (fun r => kv (5 / 6) (2 * PI * r / L0)) r in
    {| values := zip_with (fun d e => a * b * c * d * e) d e; grid := grid0 |}.

Definition phase_structure_function_von_karman (r0 L0 : R) : Grid -> Field :=
  fun grid0 =>
    let r := map (fun r => r + 1e-10) (polar_r grid0) in
    let a := Rpower (L0 / r0) (5 / 3) in
    let b := Rpower 2 (1 / 6) * gamma (11 / 6) / Rpower PI (8 / 3) in
    let c := Rpower (24 / 5 * gamma (6 / 5)) (5 / 6) in
    let d := gamma (5 / 6) / Rpower 2 (1 / 6) in
    let e := map (fun r => Rpower (2 * PI * r / L0) (5 / 6)) r in
    let f := map (fun r => kv (5 / 6) (2 * PI * r / L0)) r in
    {| values := zip_with (fun e f => a * b * c * (d - e * f)) e f; grid := grid0 |}.
End VonKarman.

Definition power_spectral_density_von_karman (r0 L0 : R) : Grid -> Field :=
  fun grid0 =>
    let u := map (fun r => r + 1e-10) (polar_r grid0) in
    let u0 := 2 * PI / L0 in
    let res :=
      map (fun u => 0.0229 * Rpower ((u ^ 2 + u0 ^ 2) / (2 * PI) ^ 2) (-11 / 6)
                    * Rpower r0 (-5 / 3)) u in
    let res :=
      zip_with (fun u x => if Rlt_dec u 1e-9 then 0 else x) u res in
    {| values := res; grid := grid0 |}.

Definition Cn_squared_from_fried_parameter (r0 wavelength0 : R) : R :=
  let k := 2 * PI / wavelength0 in
  Rpower r0 (-5 / 3) / (0.423 * k ^ 2).

Definition fried_parameter_from_Cn_squared (Cn_squared wavelength0 : R) : R :=
  let k := 2 * PI / wavelength0 in
  Rpower (0.423 * Cn_squared * k ^ 2) (-3 / 5).

Definition seeing_to_fried_parameter (seeing wavelength0 : R) : R :=
  0.98 * wavelength0 / radians (seeing / 3600).

Definition fried_parameter_to_seeing (r0 wavelength0 : R) : R :=
  degrees (0.98 * wavelength0 / r0) * 3600.

Close Scope R_scope.

(** ** The chain as the specification words it *)

(** From the altitude-sorted layers with their heights: a layer, then a
    propagator over the drop to the next layer, and after the last layer a
    propagator down to the ground when that layer is above it. *)
Fixpoint chain (grid0 : Grid) (sorted : list (loc * Z)) : list Element :=
  match sorted with
  | [] => []
  | (l, h) :: rest =>
      LayerElement l ::
      match rest with
      | [] => if (0 <? h)%Z then [FresnelPropagator grid0 h] else []
      | (_, h') :: _ => FresnelPropagator grid0 (h - h') :: chain grid0 rest
      end
  end.

(** The heights of the layers of a store, in sequence order. *)
Definition heights_of (w : World) : list Z :=
  map (fun l => height (state_of (layer_at w l))) (_layers (atmosphere w)).

(** The layer indices in the order [calculate_propagators] visits them. *)
Definition sorted_indices (w : World) : list nat :=
  argsort (map Z.opp (heights_of w)).

(** The layers among the elements, in order. *)
Definition layers_in (els : list Element) : list loc :=
  flat_map (fun el => match el with
                      | LayerElement l => [l]
                      | FresnelPropagator _ _ => []
                      end) els.

(** The elements [calculate_propagators] is to leave behind, and the store
    with them in place. *)
Definition rebuilt_elements (w : World) : list Element :=
  let layers := _layers (atmosphere w) in
  let grid0 := input_grid (state_of (layer_at w (nth 0 layers 0))) in
  if _scintillation (atmosphere w)
  then chain grid0
         (map (fun j => (nth j layers 0, nth j (heights_of w) 0%Z)) (sorted_indices w))
  else map (fun j => LayerElement (nth j layers 0)) (sorted_indices w).

Definition rebuilt (w : World) : World :=
  with_atmosphere (fun self =>
    {| _layers := _layers self;
       _scintillation := _scintillation self;
       _t := _t self;
       _dirty := false;
       elements := rebuilt_elements w |}) w.

(** ** Sample objects *)

(** Modelled from the spec: the concrete layer classes are outside this
    module.  This one overrides the two abstract setters by storing the
    value, and shows a fixed phase screen. *)
Definition store_Cn_squared : setter :=
  fun self v =>
    Ok {| input_grid := input_grid self;
          _Cn_squared := Some v;
          _outer_scale := _outer_scale self;
          _velocity := _velocity self;
          height := height self;
          layer_t := layer_t self |}.

Definition store_outer_scale : setter :=
  fun self v =>
    Ok {| input_grid := input_grid self;
          _Cn_squared := _Cn_squared self;
          _outer_scale := Some v;
          _velocity := _velocity self;
          height := height self;
          layer_t := layer_t self |}.

Definition FixedScreen (screen : list R) : LayerClass :=
  {| Cn_squared_setter := Some store_Cn_squared;
     outer_scale_setter := Some store_outer_scale;
     L0_setter := None;
     phase_for_method :=
       Some (fun self _ => {| values := screen; grid := input_grid self |}) |}.

Definition sample_grid : Grid := {| polar_r := [0%R; 1%R] |}.

(** A freshly allocated layer object, before [__init__]. *)
Definition new_layer : LayerState :=
  {| input_grid := {| polar_r := [] |};
     _Cn_squared := None;
     _outer_scale := None;
     _velocity := None;
     height := 0%Z;
     layer_t := 0%R |}.

Definition sample_layer (screen : list R) (Cn_squared : R) (height0 : Z) : LayerObj :=
  {| class_of := FixedScreen screen;
     state_of :=
       match AtmosphericLayer.__init__ (FixedScreen screen) new_layer sample_grid
               (PyFloat Cn_squared) PyInf (Scalar 0%R) height0 with
       | Ok self => self
       | Raise _ => new_layer
       end |}.

Definition new_atmosphere : Atmosphere :=
  {| _layers := []; _scintillation := false; _t := 0%R; _dirty := false;
     elements := [] |}.

(** A store with layer [i] at the [i]-th of the given heights, one
    wavefront at location 0, and a freshly allocated atmosphere. *)
Definition sample_world (heights : list Z) : World :=
  {| atmosphere := new_atmosphere;
     layer_at := fun l => sample_layer [1%R; 2%R] 1%R (nth l heights 0%Z);
     wavefront_at := fun _ => {| electric_field := [(1%R, 0%R); (0%R, 1%R)];
                                 wavelength := 1%R |};
     next_wavefront := 1;
     warnings := [] |}.

(** The store after [MultiLayerAtmosphere(layers, scintillation)]. *)
Definition constructed_from (layers : list loc) (heights : list Z)
    (scintillation : bool) : World :=
  fst (MultiLayerAtmosphere.__init__ layers scintillation None (sample_world heights)).

Definition constructed (heights : list Z) (scintillation : bool) : World :=
  constructed_from (seq 0 (length heights)) heights scintillation.

(** ** Notions used in the statements *)

(** Order on indices: by key, and by index among equal keys. *)
Definition before (key : nat -> Z) (a b : nat) : Prop :=
  (key a < key b)%Z \/ (key a = key b /\ a < b).

Definition append_all (els : list Element) (w : World) : World :=
  with_atmosphere (fun self =>
    {| _layers := _layers self;
       _scintillation := _scintillation self;
       _t := _t self;
       _dirty := _dirty self;
       elements := elements self ++ els |}) w.

(** What one turn of the loop of [calculate_propagators] appends. *)
Definition emitted (layers : list loc) (scintillation : bool)
    (propagators : list Element) (ij : nat * nat) : list Element :=
  LayerElement (nth (snd ij) layers 0) ::
  (if scintillation && (fst ij <? length propagators)
   then [nth (fst ij) propagators (LayerElement 0)] else []).

Definition nonnegative_distance (el : Element) : Prop :=
  match el with
  | LayerElement _ => True
  | FresnelPropagator _ d => (0 <= d)%Z
  end.

(** The store in which [__init__] calls [calculate_propagators]. *)
Definition initialised (layers : list loc) (scintillation : bool) (w : World) : World :=
  with_atmosphere (fun self =>
    {| _layers := _layers self;
       _scintillation := scintillation;
       _t := 0%R;
       _dirty := true;
       elements := elements self |})
    (fst (MultiLayerAtmosphere.set_layers layers w)).

(** [exp(i p)] by Euler's formula. *)
Definition expi (p : R) : C := (cos p, sin p).

(** A step leaves the wavefronts below [n] alone, and hands on a wavefront
    that is not one of them. *)
Definition keeps_below (n : nat) (step : loc -> M World loc) : Prop :=
  forall wf w,
    n <= wf -> n <= next_wavefront w ->
    n <= next_wavefront (fst (step wf w)) /\
    (forall l, l < n -> wavefront_at (fst (step wf w)) l = wavefront_at w l) /\
    (forall wf', snd (step wf w) = Ok wf' -> n <= wf').

(** What [forward] and [backward] do, the factor left open. *)
Definition phase_applied (factor : R -> C) (l wf : loc) (w : World) : World * result loc :=
  let w1 := fst (copy wf w) in
  let wf' := next_wavefront w in
  let layer := layer_at w l in
  match AtmosphericLayer.phase_for (class_of layer) (state_of layer)
          (wavelength (wavefront_at w wf)) with
  | Raise e => (w1, Raise e)
  | Ok phase =>
      match imul (electric_field (wavefront_at w wf)) (map factor (values phase)) with
      | Raise e => (w1, Raise e)
      | Ok field =>
          (with_wavefront wf'
             {| electric_field := field; wavelength := wavelength (wavefront_at w wf) |}
             w1, Ok wf')
      end
  end.

(** What is asked of the propagator: it may work on the wavefront it is
    given or on new ones, and on no other. *)
Definition local_step (step : loc -> M World loc) : Prop :=
  forall wf w,
    next_wavefront w <= next_wavefront (fst (step wf w)) /\
    (forall l, l < next_wavefront w -> l <> wf ->
               wavefront_at (fst (step wf w)) l = wavefront_at w l) /\
    (forall wf', snd (step wf w) = Ok wf' -> wf' = wf \/ next_wavefront w <= wf').

Definition local_propagation (P : Propagation) : Prop :=
  forall g d, local_step (fresnel_forward P g d) /\ local_step (fresnel_backward P g d).

(** A propagator that only copies, to have one at hand. *)
Definition copying_propagation : Propagation :=
  {| fresnel_forward := fun _ _ wf => copy wf;
     fresnel_backward := fun _ _ wf => copy wf |}.

(** A field of no samples, where a default is wanted. *)
Definition no_field : Field := {| values := []; grid := {| polar_r := [] |} |}.

(** The sum over the rows, in sequence, of their [k]-th entries, for each
    of [n] sample points. *)
Definition pointwise_sum (n : nat) (rows : list (list R)) : list R :=
  map (fun k => fold_left Rplus (map (fun row => nth k row 0%R) rows) 0%R) (seq 0 n).

(** What is asked of a class for its [Cn_squared] property to be one: a
    float assigned is the float read back. *)
Definition stores_Cn_squared (K : LayerClass) : Prop :=
  forall self v, exists self',
    AtmosphericLayer.set_Cn_squared K self (PyFloat v) = Ok self' /\
    _Cn_squared self' = Some (PyFloat v).

(** The squared modulus of a field sample, its intensity. *)
Definition Cnorm2 (z : C) : R := (fst z * fst z + snd z * snd z)%R.

(** The distance travelled through the propagators of a chain. *)
Definition total_distance (els : list Element) : Z :=
  fold_right (fun el acc => match el with
                            | LayerElement _ => acc
                            | FresnelPropagator _ d => (d + acc)%Z
                            end) 0%Z els.

(** The phase screen a layer shows at a wavelength; no samples where its
    class has no [phase_for]. *)
Definition screen_of (w : World) (wavelength0 : R) (l : loc) : list R :=
  match AtmosphericLayer.phase_for (class_of (layer_at w l))
          (state_of (layer_at w l)) wavelength0 with
  | Ok phase => values phase
  | Raise _ => []
  end.

(** The chain is the one [calculate_propagators] would build, or is marked
    for rebuilding. *)
Definition chain_current (w : World) : Prop :=
  _dirty (atmosphere w) = true \/ elements (atmosphere w) = rebuilt_elements w.

(** What is asked of a class for its outer scale to be a property: a value
    assigned is the value read back. *)
Definition stores_outer_scale (K : LayerClass) : Prop :=
  forall self v, exists self',
    AtmosphericLayer.set_outer_scale K self v = Ok self' /\
    _outer_scale self' = Some v.

(** From [w] to [w'] nothing has changed but the states of layers among
    [ls]: the composite, the wavefronts, the warnings, the other layers and
    the class of every layer are as they were. *)
Definition only_layers_touched (ls : list loc) (w w' : World) : Prop :=
  atmosphere w' = atmosphere w /\
  wavefront_at w' = wavefront_at w /\
  next_wavefront w' = next_wavefront w /\
  warnings w' = warnings w /\
  (forall l, ~ In l ls -> layer_at w' l = layer_at w l) /\
  (forall l, class_of (layer_at w' l) = class_of (layer_at w l)).

(** A class of layers with nothing for [evolve_until] and [reset], and one
    that records the time. *)
Definition no_dynamics : LayerDynamics :=
  {| evolve_until_method := None; reset_method := None |}.

Definition clock_dynamics : LayerDynamics :=
  {| evolve_until_method :=
       Some (fun self t =>
               Ok {| input_grid := input_grid self;
                     _Cn_squared := _Cn_squared self;
                     _outer_scale := _outer_scale self;
                     _velocity := _velocity self;
                     height := height self;
                     layer_t := t |});
     reset_method := Some (fun self => Ok self) |}.

(** A class that overrides the two setters and leaves [phase_for] abstract,
    and a store whose layers are all of it, around a composite that lists
    two of them. *)
Definition SettersOnly : LayerClass :=
  {| Cn_squared_setter := Some store_Cn_squared;
     outer_scale_setter := Some store_outer_scale;
     L0_setter := None;
     phase_for_method := None |}.

Definition abstract_world : World :=
  {| atmosphere := atmosphere (constructed [0; 5000]%Z false);
     layer_at := fun _ => {| class_of := SettersOnly;
                             state_of := new_layer |};
     wavefront_at := wavefront_at (constructed [0; 5000]%Z false);
     next_wavefront := 1;
     warnings := [] |}.

(** A propagator that leaves the composite alone. *)
Definition leaves_composite (P : Propagation) : Prop :=
  forall g d wf w,
    atmosphere (fst (fresnel_forward P g d wf w)) = atmosphere w /\
    atmosphere (fst (fresnel_backward P g d wf w)) = atmosphere w.

(** * Properties *)

(** ** Sorting *)

Section Argsort.
Variable key : nat -> Z.

Lemma insert_index_perm j l : Permutation (insert_index key j l) (j :: l).
Proof.
  induction l as [|k l IH]; simpl; [reflexivity|].
  destruct (key j <=? key k)%Z; [reflexivity|].
  rewrite IH. apply perm_swap.
Qed.

Lemma insert_index_sorted j l :
  Forall (fun k => j < k) l ->
  StronglySorted (before key) l ->
  StronglySorted (before key) (insert_index key j l).
Proof.
  intros Hlt Hs. induction Hs as [|k l Hs IH Hk]; simpl.
  - repeat constructor.
  - inversion Hlt as [|? ? Hjk Hlt']; subst.
    destruct (Z.leb_spec (key j) (key k)) as [Hle|Hgt].
    + constructor; [constructor; assumption|].
      assert (Hb : before key j k) by (unfold before; lia).
      constructor; [exact Hb|].
      rewrite Forall_forall in *. intros x Hx.
      specialize (Hk x Hx). specialize (Hlt' x Hx).
      unfold before in *. lia.
    + constructor; [apply IH; assumption|].
      rewrite (insert_index_perm j l).
      constructor; [unfold before; lia | assumption].
Qed.

Lemma fold_insert_spec start len :
  let out := fold_right (insert_index key) [] (seq start len) in
  Permutation out (seq start len) /\ StronglySorted (before key) out.
Proof.
  revert start. induction len as [|len IH]; intros start; simpl.
  - split; constructor.
  - destruct (IH (S start)) as [Hp Hs]. split.
    + rewrite insert_index_perm. now constructor.
    + apply insert_index_sorted; [|exact Hs].
      rewrite Hp. rewrite Forall_forall. intros x Hx.
      apply in_seq in Hx. lia.
Qed.

(** In a list sorted by [before key], two indices with one key stand in
    index order. *)
Lemma sorted_ties_in_order l i j :
  StronglySorted (before key) l ->
  In i l -> In j l -> i < j -> key i = key j ->
  exists l1 l2 l3, l = l1 ++ i :: l2 ++ j :: l3.
Proof.
  intros Hs Hi Hj Hij Hk.
  induction Hs as [|k l Hs IH Hall]; [contradiction|].
  rewrite Forall_forall in Hall.
  destruct Hi as [->|Hi], Hj as [Hj|Hj].
  - lia.
  - apply in_split in Hj. destruct Hj as (l2 & l3 & ->).
    now exists [], l2, l3.
  - subst k. specialize (Hall i Hi). unfold before in Hall. lia.
  - destruct (IH Hi Hj) as (l1 & l2 & l3 & ->).
    now exists (k :: l1), l2, l3.
Qed.
End Argsort.

Lemma argsort_perm keys : Permutation (argsort keys) (seq 0 (length keys)).
Proof. apply fold_insert_spec. Qed.

Lemma argsort_sorted keys :
  StronglySorted (before (fun i => nth i keys 0%Z)) (argsort keys).
Proof. apply fold_insert_spec. Qed.

Lemma argsort_length keys : length (argsort keys) = length keys.
Proof.
  rewrite (Permutation_length (argsort_perm keys)). apply length_seq.
Qed.

Lemma argsort_in_range keys j : In j (argsort keys) -> j < length keys.
Proof.
  intros H. apply (Permutation_in _ (argsort_perm keys)) in H.
  apply in_seq in H. lia.
Qed.

(** ** The store after a sequence of appends *)

Lemma append_all_nil w : append_all [] w = w.
Proof.
  destruct w as [[ls sc t d els] la wa nw ws].
  unfold append_all, with_atmosphere; simpl. now rewrite app_nil_r.
Qed.

Lemma append_all_app els1 els2 w :
  append_all els2 (append_all els1 w) = append_all (els1 ++ els2) w.
Proof.
  unfold append_all, with_atmosphere; simpl. now rewrite app_assoc.
Qed.

Lemma getitem_nth {A} (xs : list A) i d :
  i < length xs -> getitem xs i = Ok (nth i xs d).
Proof.
  intros H. unfold getitem.
  destruct (nth_error xs i) eqn:E.
  - now rewrite (nth_error_nth _ _ d E).
  - apply nth_error_None in E. lia.
Qed.

Lemma loop_appends layers scintillation propagators ijs : forall w,
  Forall (fun ij => snd ij < length layers) ijs ->
  for_each ijs (fun ij =>
    lj <- lift (getitem layers (snd ij)) ;;
    MultiLayerAtmosphere.append_element (LayerElement lj) ;;
    if scintillation && (fst ij <? length propagators)
    then p <- lift (getitem propagators (fst ij)) ;;
         MultiLayerAtmosphere.append_element p
    else ret tt) w
  = (append_all (flat_map (emitted layers scintillation propagators) ijs) w, Ok tt).
Proof.
  induction ijs as [|[i j] ijs IH]; intros w Hall.
  - simpl. now rewrite append_all_nil.
  - inversion Hall as [|? ? Hj Hall']; subst. simpl in Hj.
    cbn [for_each flat_map]. unfold bind at 1. unfold bind at 1.
    unfold lift at 1. cbn [snd fst].
    rewrite (getitem_nth layers 0 Hj).
    unfold bind at 1.
    change (MultiLayerAtmosphere.append_element (LayerElement (nth j layers 0)) w)
      with (append_all [LayerElement (nth j layers 0)] w, Ok tt).
    cbv iota beta.
    unfold emitted at 1. cbn [fst snd].
    destruct (scintillation && (i <? length propagators)) eqn:E.
    + apply andb_prop in E. destruct E as [_ E]. apply Nat.ltb_lt in E.
      unfold bind at 1. unfold lift at 1.
      rewrite (getitem_nth propagators (LayerElement 0) E).
      change (MultiLayerAtmosphere.append_element (nth i propagators (LayerElement 0))
                (append_all [LayerElement (nth j layers 0)] w))
        with (append_all [nth i propagators (LayerElement 0)]
                (append_all [LayerElement (nth j layers 0)] w), Ok tt).
      cbv iota beta. rewrite (IH _ Hall'). now rewrite !append_all_app.
    + unfold ret at 1. cbv iota beta.
      rewrite (IH _ Hall'). now rewrite !append_all_app.
Qed.

Lemma StronglySorted_map {A B} (R1 : A -> A -> Prop) (R2 : B -> B -> Prop)
    (f : A -> B) l :
  (forall a b, R1 a b -> R2 (f a) (f b)) ->
  StronglySorted R1 l -> StronglySorted R2 (map f l).
Proof.
  intros Hf Hs. induction Hs as [|a l Hs IH Ha]; simpl; constructor; auto.
  rewrite Forall_forall in *. intros y Hy.
  apply in_map_iff in Hy. destruct Hy as (x & <- & Hx). auto.
Qed.

Lemma key_opp heights i :
  nth i (map Z.opp heights) 0%Z = (- nth i heights 0)%Z.
Proof. now rewrite <- (map_nth Z.opp). Qed.

Lemma sorted_heights_descending heights :
  StronglySorted Z.ge (take heights (argsort (map Z.opp heights))).
Proof.
  unfold take.
  apply StronglySorted_map with (R1 := before (fun i => nth i (map Z.opp heights) 0%Z)).
  - intros a b. unfold before. rewrite !key_opp. lia.
  - apply argsort_sorted.
Qed.

Lemma skipn_cons_inv {A} k (l : list A) x xs d :
  skipn k l = x :: xs ->
  k < length l /\ nth k l d = x /\ skipn (S k) l = xs.
Proof.
  revert l. induction k as [|k IH]; intros l H.
  - destruct l; simpl in H; [discriminate|]. inversion H; subst.
    simpl. repeat split. lia.
  - destruct l as [|y l]; simpl in H; [discriminate|].
    destruct (IH _ H) as (Hk & Hn & Hs). simpl. repeat split; [lia|exact Hn|exact Hs].
Qed.

Lemma skipn_nil_inv {A} k (l : list A) : skipn k l = [] -> length l <= k.
Proof.
  revert l. induction k as [|k IH]; intros l H.
  - destruct l; [simpl; lia | discriminate].
  - destruct l as [|y l]; simpl in *; [lia|]. specialize (IH _ H). lia.
Qed.

Section Chain.
Variables (layers : list loc) (heights : list Z) (grid0 : Grid).

Let pair_of (j : nat) : loc * Z := (nth j layers 0, nth j heights 0%Z).

Lemma emitted_chain idxs : forall k propagators,
  idxs <> [] ->
  skipn k propagators =
    map (FresnelPropagator grid0)
      (zip_with Z.sub (removelast (take heights idxs)) (tl (take heights idxs))) ->
  flat_map (emitted layers true propagators) (combine (seq k (length idxs)) idxs)
    ++ (if (0 <? last (take heights idxs) 0)%Z
        then [FresnelPropagator grid0 (last (take heights idxs) 0%Z)] else [])
  = chain grid0 (map pair_of idxs).
Proof.
  induction idxs as [|j idxs IH]; intros k propagators Hne Hskip; [congruence|].
  destruct idxs as [|j' idxs].
  - simpl in *. apply skipn_nil_inv in Hskip.
    unfold emitted; simpl.
    assert (E : (k <? length propagators) = false) by (apply Nat.ltb_ge; lia).
    rewrite E. reflexivity.
  - change (skipn k propagators =
            FresnelPropagator grid0 (nth j heights 0 - nth j' heights 0)%Z
            :: map (FresnelPropagator grid0)
                 (zip_with Z.sub (removelast (take heights (j' :: idxs)))
                    (tl (take heights (j' :: idxs))))) in Hskip.
    apply (skipn_cons_inv _ _ (LayerElement 0)) in Hskip.
    destruct Hskip as (Hk & Hn & Hs).
    change (last (take heights (j :: j' :: idxs)) 0%Z)
      with (last (take heights (j' :: idxs)) 0%Z).
    change (length (j :: j' :: idxs)) with (S (length (j' :: idxs))).
    change (map pair_of (j :: j' :: idxs))
      with (pair_of j :: pair_of j' :: map pair_of idxs).
    change (chain grid0 (pair_of j :: pair_of j' :: map pair_of idxs))
      with (LayerElement (nth j layers 0)
            :: FresnelPropagator grid0 (nth j heights 0 - nth j' heights 0)%Z
            :: chain grid0 (map pair_of (j' :: idxs))).
    rewrite <- (IH (S k) propagators) by (solve [discriminate | exact Hs]).
    cbn [seq combine flat_map].
    unfold emitted at 1. cbn [fst snd andb].
    apply Nat.ltb_lt in Hk. rewrite Hk, Hn. reflexivity.
Qed.

Lemma emitted_plain idxs : forall k,
  flat_map (emitted layers false []) (combine (seq k (length idxs)) idxs)
  = map (fun j => LayerElement (nth j layers 0)) idxs.
Proof.
  induction idxs as [|j idxs IH]; intros k; [reflexivity|].
  cbn [length seq combine flat_map map]. rewrite IH. reflexivity.
Qed.
End Chain.

Lemma chain_distances grid0 sorted :
  StronglySorted Z.ge (map snd sorted) ->
  Forall nonnegative_distance (chain grid0 sorted).
Proof.
  induction sorted as [|[l h] rest IH]; intros Hs; [constructor|].
  simpl in Hs. inversion Hs as [|? ? Hs' Hall]; subst.
  cbn [chain]. constructor; [exact I|].
  destruct rest as [|[l' h'] rest'].
  - destruct (Z.ltb_spec 0 h); repeat constructor. simpl. lia.
  - constructor.
    + simpl. inversion Hall; subst. simpl in *. lia.
    + specialize (IH Hs'). cbn [chain] in IH. inversion IH; assumption.
Qed.

Lemma last_cons {A} (xs : list A) : forall x d, last (x :: xs) d = last xs x.
Proof.
  induction xs as [|y xs IH]; intros x d; [reflexivity|].
  change (last (x :: y :: xs) d) with (last (y :: xs) d).
  now rewrite (IH y d), (IH y x).
Qed.

Lemma getlast_last {A} (xs : list A) d : xs <> [] -> getlast xs = Ok (last xs d).
Proof.
  destruct xs as [|x xs]; [congruence|]. intros _.
  simpl getlast. now rewrite last_cons.
Qed.

Lemma sorted_indices_length w :
  length (sorted_indices w) = length (_layers (atmosphere w)).
Proof.
  unfold sorted_indices, heights_of. now rewrite argsort_length, !length_map.
Qed.

Lemma sorted_indices_in_range w j :
  In j (sorted_indices w) -> j < length (_layers (atmosphere w)).
Proof.
  intros H. apply argsort_in_range in H.
  unfold heights_of in H. now rewrite !length_map in H.
Qed.

(** ** [calculate_propagators], run *)

Lemma calculate_propagators_empty w :
  _layers (atmosphere w) = [] ->
  MultiLayerAtmosphere.calculate_propagators w = (w, Raise IndexError).
Proof.
  intros E. unfold MultiLayerAtmosphere.calculate_propagators.
  unfold bind at 1. unfold get at 1. cbv iota beta zeta.
  unfold bind at 1. unfold lift at 1.
  unfold MultiLayerAtmosphere.get_layers. rewrite E. reflexivity.
Qed.

Lemma calculate_propagators_run w :
  _layers (atmosphere w) <> [] ->
  MultiLayerAtmosphere.calculate_propagators w = (rebuilt w, Ok tt).
Proof.
  intros Hne.
  assert (Hidx : sorted_indices w <> []).
  { intros E. apply Hne. apply length_zero_iff_nil.
    rewrite <- sorted_indices_length, E. reflexivity. }
  unfold MultiLayerAtmosphere.calculate_propagators.
  unfold bind at 1. unfold get at 1. cbv iota beta zeta.
  unfold MultiLayerAtmosphere.get_layers, MultiLayerAtmosphere.get_scintillation.
  fold (heights_of w). fold (sorted_indices w).
  unfold bind at 1. unfold lift at 1.
  rewrite (getitem_nth (_layers (atmosphere w)) 0)
    by (destruct (_layers (atmosphere w)); [congruence | simpl; lia]).
  unfold bind at 1.
  unfold MultiLayerAtmosphere.set_elements at 1. unfold modify at 1.
  unfold bind at 1. unfold MultiLayerAtmosphere.enumerate.
  rewrite loop_appends.
  2:{ rewrite Forall_forall. intros [i j] Hin. apply in_combine_r in Hin.
      simpl. now apply sorted_indices_in_range. }
  unfold rebuilt, rebuilt_elements.
  destruct (_scintillation (atmosphere w)) eqn:Esc.
  - unfold bind at 1. unfold bind at 1. unfold lift at 1.
    rewrite (@getlast_last _ (take (heights_of w) (sorted_indices w)) 0%Z)
      by (unfold take; intros E; apply map_eq_nil in E; contradiction).
    rewrite <- (@emitted_chain (_layers (atmosphere w)) (heights_of w) _
                  (sorted_indices w) 0
                  (map (FresnelPropagator
                          (input_grid (state_of (layer_at w (nth 0 (_layers (atmosphere w)) 0)))))
                     (zip_with Z.sub (removelast (take (heights_of w) (sorted_indices w)))
                        (tl (take (heights_of w) (sorted_indices w))))) Hidx eq_refl).
    destruct (0 <? last (take (heights_of w) (sorted_indices w)) 0)%Z.
    + unfold MultiLayerAtmosphere.append_element, MultiLayerAtmosphere.set_dirty,
        modify, append_all, with_atmosphere. simpl. reflexivity.
    + unfold ret at 1.
      unfold MultiLayerAtmosphere.set_dirty,
        modify, append_all, with_atmosphere. simpl. now rewrite app_nil_r.
  - unfold bind at 1. unfold ret at 1.
    rewrite emitted_plain.
    unfold MultiLayerAtmosphere.set_dirty,
        modify, append_all, with_atmosphere. simpl. reflexivity.
Qed.

Lemma chain_length grid0 sorted :
  sorted <> [] ->
  length (chain grid0 sorted) =
    2 * length sorted - 1 + (if (0 <? last (map snd sorted) 0)%Z then 1 else 0).
Proof.
  induction sorted as [|[l h] rest IH]; intros Hne; [congruence|].
  destruct rest as [|[l' h'] rest'].
  - simpl. destruct (0 <? h)%Z; reflexivity.
  - change (chain grid0 ((l, h) :: (l', h') :: rest'))
      with (LayerElement l :: FresnelPropagator grid0 (h - h')
            :: chain grid0 ((l', h') :: rest')).
    change (last (map snd ((l, h) :: (l', h') :: rest')) 0%Z)
      with (last (map snd ((l', h') :: rest')) 0%Z).
    cbn [length] in *. rewrite IH by discriminate. lia.
Qed.

Lemma chain_last grid0 sorted d :
  (0 < last (map snd sorted) 0)%Z ->
  last (chain grid0 sorted) d = FresnelPropagator grid0 (last (map snd sorted) 0%Z).
Proof.
  induction sorted as [|[l h] rest IH]; intros Hpos; [simpl in Hpos; lia|].
  destruct rest as [|[l' h'] rest'].
  - simpl in *. apply Z.ltb_lt in Hpos. rewrite Hpos. reflexivity.
  - change (chain grid0 ((l, h) :: (l', h') :: rest'))
      with (LayerElement l :: FresnelPropagator grid0 (h - h')
            :: chain grid0 ((l', h') :: rest')).
    change (last (map snd ((l, h) :: (l', h') :: rest')) 0%Z)
      with (last (map snd ((l', h') :: rest')) 0%Z) in *.
    rewrite <- (IH Hpos).
    destruct (chain grid0 ((l', h') :: rest')) eqn:E; [discriminate|].
    reflexivity.
Qed.

Lemma chain_layers grid0 sorted :
  layers_in (chain grid0 sorted) = map fst sorted.
Proof.
  induction sorted as [|[l h] rest IH]; [reflexivity|].
  destruct rest as [|[l' h'] rest'].
  - simpl. destruct (0 <? h)%Z; reflexivity.
  - change (chain grid0 ((l, h) :: (l', h') :: rest'))
      with (LayerElement l :: FresnelPropagator grid0 (h - h')
            :: chain grid0 ((l', h') :: rest')).
    cbn [layers_in flat_map app]. fold (layers_in (chain grid0 ((l', h') :: rest'))).
    rewrite IH. reflexivity.
Qed.

Lemma rebuilt_layers w :
  layers_in (rebuilt_elements w)
  = map (fun j => nth j (_layers (atmosphere w)) 0) (sorted_indices w).
Proof.
  unfold rebuilt_elements. destruct (_scintillation (atmosphere w)).
  - rewrite chain_layers, map_map. reflexivity.
  - induction (sorted_indices w) as [|j l IH]; [reflexivity|].
    cbn [map layers_in flat_map app]. f_equal. exact IH.
Qed.

(** ** The chain *)

(** C1.  On a non-empty list of layers [calculate_propagators] returns
    normally and clears the dirty flag.  The visiting order is a permutation
    of the indices along which the heights descend.  With scintillation the
    elements are the chain of the sorted layers: layer, propagator over the
    drop to the next layer (never negative, on the grid of the first layer
    of the list), ..., last layer, and one more
    propagator down to the ground exactly when the lowest height is
    positive; without scintillation they are the sorted layers alone. *)
Theorem calculate_propagators_chain (w : World) :
  _layers (atmosphere w) <> [] ->
  let layers := _layers (atmosphere w) in
  let heights := heights_of w in
  let sorted := sorted_indices w in
  let lowest := last (take heights sorted) 0%Z in
  let grid0 := input_grid (state_of (layer_at w (nth 0 layers 0))) in
  let w' := fst (MultiLayerAtmosphere.calculate_propagators w) in
  snd (MultiLayerAtmosphere.calculate_propagators w) = Ok tt /\
  _dirty (atmosphere w') = false /\
  Permutation sorted (seq 0 (length layers)) /\
  StronglySorted Z.ge (take heights sorted) /\
  (_scintillation (atmosphere w) = true ->
     elements (atmosphere w')
       = chain grid0 (map (fun j => (nth j layers 0, nth j heights 0%Z)) sorted) /\
     Forall nonnegative_distance (elements (atmosphere w')) /\
     length (elements (atmosphere w'))
       = 2 * length layers - 1 + (if (0 <? lowest)%Z then 1 else 0) /\
     ((0 < lowest)%Z ->
      last (elements (atmosphere w')) (LayerElement 0) = FresnelPropagator grid0 lowest)) /\
  (_scintillation (atmosphere w) = false ->
     elements (atmosphere w') = map (fun j => LayerElement (nth j layers 0)) sorted).
Proof.
  intros Hne layers heights sorted lowest grid0 w'.
  assert (Hsnd : map snd (map (fun j => (nth j layers 0, nth j heights 0%Z)) sorted)
                 = take heights sorted).
  { unfold take. rewrite map_map. reflexivity. }
  assert (Hs : StronglySorted Z.ge (take heights sorted))
    by apply sorted_heights_descending.
  assert (Hp : Permutation sorted (seq 0 (length layers))).
  { unfold sorted, sorted_indices.
    rewrite <- (length_map (fun l => height (state_of (layer_at w l))) layers).
    rewrite <- (length_map Z.opp). apply argsort_perm. }
  subst w'. rewrite (calculate_propagators_run w Hne).
  cbn [fst snd]. unfold rebuilt, with_atmosphere.
  cbn [atmosphere _dirty elements]. unfold rebuilt_elements.
  fold layers heights sorted grid0.
  assert (Hpairs : map (fun j => (nth j layers 0, nth j heights 0%Z)) sorted <> []).
  { intros E. apply map_eq_nil in E. apply Hne.
    apply length_zero_iff_nil.
    rewrite <- (sorted_indices_length w). fold sorted. rewrite E. reflexivity. }
  split; [reflexivity|]. split; [reflexivity|].
  split; [exact Hp|]. split; [exact Hs|]. split.
  - intros Hsc. rewrite Hsc. split; [reflexivity|]. split; [|split].
    + apply chain_distances. rewrite Hsnd. exact Hs.
    + rewrite (chain_length grid0 Hpairs), Hsnd, length_map.
      unfold sorted at 1. rewrite sorted_indices_length. reflexivity.
    + intros Hpos. rewrite chain_last; rewrite Hsnd; [reflexivity|exact Hpos].
  - intros Hsc. rewrite Hsc. reflexivity.
Qed.

Lemma calculate_propagators_chain_witness :
  snd (MultiLayerAtmosphere.calculate_propagators (constructed [100; 5000; 10000]%Z true))
  = Ok tt.
Proof.
  exact (proj1 (calculate_propagators_chain
                  (constructed [100; 5000; 10000]%Z true) ltac:(discriminate))).
Defined.

(** The two chains the specification gives as examples. *)
Example chain_0_5000_10000 :
  elements (atmosphere (constructed [0; 5000; 10000]%Z true)) =
  [LayerElement 2; FresnelPropagator sample_grid 5000;
   LayerElement 1; FresnelPropagator sample_grid 5000;
   LayerElement 0].
Proof. reflexivity. Qed.

Example chain_100_5000_10000 :
  elements (atmosphere (constructed [100; 5000; 10000]%Z true)) =
  [LayerElement 2; FresnelPropagator sample_grid 5000;
   LayerElement 1; FresnelPropagator sample_grid 4900;
   LayerElement 0; FresnelPropagator sample_grid 100].
Proof. reflexivity. Qed.

Example chain_without_scintillation :
  elements (atmosphere (constructed [100; 5000; 10000]%Z false)) =
  [LayerElement 2; LayerElement 1; LayerElement 0].
Proof. reflexivity. Qed.

(** ** Ties *)

(** C9, as the code has it.  The layers among the elements are the layers
    of the list taken in the visiting order; their heights descend, equal
    heights side by side; and of two layers of one height the one that comes
    first in the list is visited first. *)
Theorem tied_layers_keep_input_order (w : World) (i j : nat) :
  let layers := _layers (atmosphere w) in
  let heights := heights_of w in
  let w' := fst (MultiLayerAtmosphere.calculate_propagators w) in
  i < j -> j < length layers ->
  nth i heights 0%Z = nth j heights 0%Z ->
  layers_in (elements (atmosphere w'))
    = map (fun k => nth k layers 0) (sorted_indices w) /\
  StronglySorted Z.ge (take heights (sorted_indices w)) /\
  exists l1 l2 l3, sorted_indices w = l1 ++ i :: l2 ++ j :: l3.
Proof.
  intros layers heights w' Hij Hj Hh.
  assert (Hne : _layers (atmosphere w) <> []).
  { intros E. unfold layers in Hj. rewrite E in Hj. simpl in Hj. lia. }
  split; [|split].
  - subst w'. rewrite (calculate_propagators_run w Hne). cbn [fst].
    unfold rebuilt, with_atmosphere. cbn [atmosphere elements].
    apply rebuilt_layers.
  - apply sorted_heights_descending.
  - assert (Hin : forall k, k < length layers -> In k (sorted_indices w)).
    { intros k Hk. unfold sorted_indices.
      apply (Permutation_in _ (Permutation_sym (argsort_perm _))).
      apply in_seq. unfold heights_of. rewrite !length_map. fold layers. lia. }
    apply (sorted_ties_in_order (argsort_sorted (map Z.opp (heights_of w)))).
    + apply Hin. lia.
    + apply Hin. exact Hj.
    + exact Hij.
    + rewrite !key_opp. fold heights. lia.
Qed.

Lemma tied_layers_keep_input_order_witness :
  exists l1 l2 l3,
    sorted_indices (constructed [5000; 10000; 5000; 10000]%Z true)
    = l1 ++ 0 :: l2 ++ 2 :: l3.
Proof.
  exact (proj2 (proj2 (tied_layers_keep_input_order
                         (constructed [5000; 10000; 5000; 10000]%Z true)
                         (i := 0) (j := 2)
                         ltac:(lia) ltac:(simpl; lia) ltac:(reflexivity)))).
Defined.

(** C9, where the specification asks for more than the code does: with two
    layers of one height the heights along the elements do not descend
    strictly. *)
Lemma tied_heights_not_strictly_descending :
  let w := constructed [5000; 5000]%Z true in
  take (heights_of w) (sorted_indices w) = [5000; 5000]%Z /\
  ~ StronglySorted Z.gt (take (heights_of w) (sorted_indices w)).
Proof.
  cbv zeta. split; [reflexivity|].
  change (take _ _) with [5000; 5000]%Z.
  intros H. inversion H as [|? ? _ Hall]; subst.
  inversion Hall as [|? ? Hgt _]; subst. lia.
Qed.

Example ties_example :
  elements (atmosphere (constructed [5000; 10000; 5000; 10000]%Z true)) =
  [LayerElement 1; FresnelPropagator sample_grid 0;
   LayerElement 3; FresnelPropagator sample_grid 5000;
   LayerElement 0; FresnelPropagator sample_grid 0;
   LayerElement 2; FresnelPropagator sample_grid 5000].
Proof. reflexivity. Qed.

(** ** Construction *)

Lemma init_correct_spelling layers scintillation w :
  MultiLayerAtmosphere.__init__ layers scintillation None w
  = MultiLayerAtmosphere.calculate_propagators (initialised layers scintillation w).
Proof. reflexivity. Qed.

Lemma init_legacy_spelling layers scintillation legacy w :
  MultiLayerAtmosphere.__init__ layers scintillation (Some legacy) w
  = MultiLayerAtmosphere.calculate_propagators
      (initialised layers legacy
         (fst (warn MultiLayerAtmosphere.spelling_warning w))).
Proof. reflexivity. Qed.

Lemma init_run layers scintillation w :
  layers <> [] ->
  MultiLayerAtmosphere.__init__ layers scintillation None w
  = (rebuilt (initialised layers scintillation w), Ok tt).
Proof.
  intros Hne. rewrite init_correct_spelling.
  apply calculate_propagators_run. exact Hne.
Qed.

(** C8.  With the legacy flag given, construction adds the one warning,
    takes the legacy value, and ends as it would have ended without the
    warning: on a non-empty list of layers, normally.  Without the legacy
    flag there is no warning and the flag given is the one in force. *)
Theorem legacy_flag_warns_and_wins (w : World) (layers : list loc)
    (scintillation legacy : bool) :
  layers <> [] ->
  let both := MultiLayerAtmosphere.__init__ layers scintillation (Some legacy) w in
  let only := MultiLayerAtmosphere.__init__ layers scintillation None w in
  (snd both = Ok tt /\
   warnings (fst both) = warnings w ++ [MultiLayerAtmosphere.spelling_warning] /\
   _scintillation (atmosphere (fst both)) = legacy /\
   atmosphere (fst both)
     = atmosphere (fst (MultiLayerAtmosphere.__init__ layers legacy None w))) /\
  (snd only = Ok tt /\
   warnings (fst only) = warnings w /\
   _scintillation (atmosphere (fst only)) = scintillation).
Proof.
  intros Hne both only. subst both only.
  rewrite init_legacy_spelling, !init_correct_spelling.
  rewrite !calculate_propagators_run by exact Hne.
  repeat split.
Qed.

Lemma legacy_flag_warns_and_wins_witness :
  warnings (fst (MultiLayerAtmosphere.__init__ [0; 1] false (Some true)
                   (sample_world [0; 5000]%Z)))
  = warnings (sample_world [0; 5000]%Z) ++ [MultiLayerAtmosphere.spelling_warning].
Proof.
  exact (proj1 (proj2 (proj1 (legacy_flag_warns_and_wins
                                (sample_world [0; 5000]%Z) (layers := [0; 1])
                                false true ltac:(discriminate))))).
Defined.

(** The warning does not decide whether construction fails: an empty list
    of layers fails with or without it. *)
Lemma init_empty_fails w scintillation scintilation :
  snd (MultiLayerAtmosphere.__init__ [] scintillation scintilation w) = Raise IndexError.
Proof.
  destruct scintilation as [legacy|].
  - rewrite init_legacy_spelling. now rewrite calculate_propagators_empty.
  - rewrite init_correct_spelling. now rewrite calculate_propagators_empty.
Qed.

(** ** The dirty flag *)

Lemma dirty_after_construction w layers scintillation scintilation :
  layers <> [] ->
  _dirty (atmosphere (fst (MultiLayerAtmosphere.__init__ layers scintillation scintilation w)))
  = false.
Proof.
  intros Hne. destruct scintilation as [legacy|].
  - rewrite init_legacy_spelling, calculate_propagators_run by exact Hne. reflexivity.
  - rewrite init_correct_spelling, calculate_propagators_run by exact Hne. reflexivity.
Qed.

Lemma dirty_after_set_layers w layers :
  _dirty (atmosphere (fst (MultiLayerAtmosphere.set_layers layers w))) = true.
Proof. reflexivity. Qed.

Lemma dirty_after_toggle w :
  _dirty (atmosphere (fst (MultiLayerAtmosphere.set_scintillation
                             (negb (MultiLayerAtmosphere.get_scintillation w)) w)))
  = true.
Proof.
  unfold MultiLayerAtmosphere.get_scintillation. simpl.
  now destruct (_scintillation (atmosphere w)).
Qed.

(** C2, where the code departs from it.  The list of layers is replaced,
    which sets the flag; then [scintillation] is assigned the value it
    already has.  The flag is clear again, with the elements still those of
    the old list. *)
Theorem same_scintillation_clears_dirty (w : World) (layers : list loc) :
  let w1 := fst (MultiLayerAtmosphere.set_layers layers w) in
  let w2 := fst (MultiLayerAtmosphere.set_scintillation
                   (MultiLayerAtmosphere.get_scintillation w1) w1) in
  _dirty (atmosphere w1) = true /\
  _dirty (atmosphere w2) = false /\
  _layers (atmosphere w2) = layers /\
  elements (atmosphere w2) = elements (atmosphere w).
Proof.
  simpl. unfold MultiLayerAtmosphere.get_scintillation. simpl.
  rewrite Bool.eqb_reflx. repeat split.
Qed.

(** The same on sample objects, followed by a traversal: the layers are
    [[1]], the flag is clear, and [forward] has gone through the chain of
    the old list.  Without the assignment to [scintillation] it rebuilds. *)
Example stale_chain_after_same_scintillation :
  let w0 := constructed [0; 5000]%Z false in
  let w1 := fst (MultiLayerAtmosphere.set_layers [1] w0) in
  let w2 := fst (MultiLayerAtmosphere.set_scintillation false w1) in
  let w3 := fst (MultiLayerAtmosphere.forward copying_propagation 0 w2) in
  _dirty (atmosphere w2) = false /\
  _layers (atmosphere w3) = [1] /\
  elements (atmosphere w3) = [LayerElement 1; LayerElement 0].
Proof. cbv zeta. repeat split. Qed.

Example chain_rebuilt_after_set_layers :
  let w0 := constructed [0; 5000]%Z false in
  let w1 := fst (MultiLayerAtmosphere.set_layers [1] w0) in
  let w3 := fst (MultiLayerAtmosphere.forward copying_propagation 0 w1) in
  _dirty (atmosphere w1) = true /\
  _dirty (atmosphere w3) = false /\
  elements (atmosphere w3) = [LayerElement 1].
Proof. cbv zeta. repeat split. Qed.

(** ** Wavefronts are copied, never changed in place *)

Lemma forward_factor p : Cexp (Cmul Ci (RtoC p)) = expi p.
Proof.
  unfold Cexp, Cmul, Ci, RtoC, expi. cbn [fst snd].
  replace (0 * p - 1 * 0)%R with 0%R by ring.
  replace (0 * 0 + 1 * p)%R with p by ring.
  rewrite exp_0. f_equal; ring.
Qed.

Lemma backward_factor p : Cexp (Cmul Cneg_i (RtoC p)) = expi (- p).
Proof.
  unfold Cexp, Cmul, Cneg_i, RtoC, expi. cbn [fst snd].
  replace (0 * p - -1 * 0)%R with 0%R by ring.
  replace (0 * 0 + -1 * p)%R with (- p)%R by ring.
  rewrite exp_0. f_equal; ring.
Qed.

Lemma imul_same_length a b : length b = length a -> imul a b = Ok (zip_with Cmul a b).
Proof. intros H. unfold imul. now rewrite H, Nat.eqb_refl. Qed.

Lemma update_same {A} (f : loc -> A) l a : update f l a l = a.
Proof. unfold update. now rewrite Nat.eqb_refl. Qed.

Lemma update_other {A} (f : loc -> A) l a l' : l' <> l -> update f l a l' = f l'.
Proof. intros H. unfold update. apply Nat.eqb_neq in H. now rewrite H. Qed.

Lemma layer_forward_eq l wf w :
  AtmosphericLayer.forward l wf w
  = phase_applied (fun p => Cexp (Cmul Ci (RtoC p))) l wf w.
Proof.
  unfold AtmosphericLayer.forward, phase_applied, bind, copy, get, lift, modify, ret.
  cbn [fst snd layer_at wavefront_at next_wavefront]. rewrite update_same.
  destruct (AtmosphericLayer.phase_for _ _ _) as [phase|e]; [|reflexivity].
  destruct (imul _ _) as [field|e]; [|reflexivity].
  cbn [wavefront_at]. rewrite ?update_same. reflexivity.
Qed.

Lemma layer_backward_eq l wf w :
  AtmosphericLayer.backward l wf w
  = phase_applied (fun p => Cexp (Cmul Cneg_i (RtoC p))) l wf w.
Proof.
  unfold AtmosphericLayer.backward, phase_applied, bind, copy, get, lift, modify, ret.
  cbn [fst snd layer_at wavefront_at next_wavefront]. rewrite update_same.
  destruct (AtmosphericLayer.phase_for _ _ _) as [phase|e]; [|reflexivity].
  destruct (imul _ _) as [field|e]; [|reflexivity].
  cbn [wavefront_at]. rewrite ?update_same. reflexivity.
Qed.

Lemma phase_applied_frame factor l wf w l' :
  l' < next_wavefront w ->
  wavefront_at (fst (phase_applied factor l wf w)) l' = wavefront_at w l'.
Proof.
  intros Hl. unfold phase_applied.
  destruct (AtmosphericLayer.phase_for _ _ _) as [phase|e].
  - destruct (imul _ _) as [field|e];
      cbn [fst copy with_wavefront wavefront_at next_wavefront];
      rewrite ?update_other by lia; reflexivity.
  - cbn [fst copy wavefront_at]. rewrite update_other by lia. reflexivity.
Qed.

Lemma phase_applied_next factor l wf w :
  next_wavefront (fst (phase_applied factor l wf w)) = S (next_wavefront w).
Proof.
  unfold phase_applied.
  destruct (AtmosphericLayer.phase_for _ _ _) as [phase|e]; [|reflexivity].
  destruct (imul _ _) as [field|e]; reflexivity.
Qed.

Lemma phase_applied_result factor l wf w wf' :
  snd (phase_applied factor l wf w) = Ok wf' -> wf' = next_wavefront w.
Proof.
  unfold phase_applied.
  destruct (AtmosphericLayer.phase_for _ _ _) as [phase|e]; [|discriminate].
  destruct (imul _ _) as [field|e]; [|discriminate].
  cbn [snd]. congruence.
Qed.

Lemma phase_applied_keeps n factor l : keeps_below n (phase_applied factor l).
Proof.
  intros wf w Hwf Hn. split; [|split].
  - rewrite phase_applied_next. lia.
  - intros l' Hl'. apply phase_applied_frame. lia.
  - intros wf' E. apply phase_applied_result in E. lia.
Qed.

Lemma layer_forward_keeps n l : keeps_below n (AtmosphericLayer.forward l).
Proof.
  intros wf w. rewrite layer_forward_eq. apply phase_applied_keeps.
Qed.

Lemma layer_backward_keeps n l : keeps_below n (AtmosphericLayer.backward l).
Proof.
  intros wf w. rewrite layer_backward_eq. apply phase_applied_keeps.
Qed.

Lemma through_keeps n step els :
  (forall el, In el els -> keeps_below n (step el)) ->
  keeps_below n (MultiLayerAtmosphere.through step els).
Proof.
  induction els as [|el els IH]; intros Hstep wf w Hwf Hn.
  - cbn. split; [exact Hn|]. split; [reflexivity|].
    intros wf' E. inversion E. subst. exact Hwf.
  - cbn [MultiLayerAtmosphere.through]. unfold bind.
    destruct (Hstep el (or_introl eq_refl) wf w Hwf Hn) as (H1 & H2 & H3).
    destruct (step el wf w) as [w1 [wf1|e]] eqn:E; cbn [fst snd] in *.
    + specialize (H3 wf1 eq_refl).
      destruct (IH (fun el' Hin => Hstep el' (or_intror Hin)) wf1 w1 H3 H1)
        as (K1 & K2 & K3).
      split; [exact K1|]. split; [|exact K3].
      intros l Hl. rewrite K2 by exact Hl. now apply H2.
    + split; [exact H1|]. split; [exact H2|]. discriminate.
Qed.

Lemma local_step_keeps n step : local_step step -> keeps_below n step.
Proof.
  intros Hloc wf w Hwf Hn. destruct (Hloc wf w) as (H1 & H2 & H3).
  split; [lia|]. split.
  - intros l Hl. apply H2; lia.
  - intros wf' E. destruct (H3 wf' E); lia.
Qed.

Lemma copy_local : local_step copy.
Proof.
  intros wf w. unfold copy. cbn [fst snd next_wavefront wavefront_at].
  split; [lia|]. split.
  - intros l Hl _. apply update_other. lia.
  - intros wf' E. inversion E. right. lia.
Qed.

Lemma copying_propagation_local : local_propagation copying_propagation.
Proof. intros g d. split; apply copy_local. Qed.

Lemma calculate_propagators_wavefronts w :
  wavefront_at (fst (MultiLayerAtmosphere.calculate_propagators w)) = wavefront_at w /\
  next_wavefront (fst (MultiLayerAtmosphere.calculate_propagators w)) = next_wavefront w.
Proof.
  destruct (_layers (atmosphere w)) eqn:E.
  - rewrite (calculate_propagators_empty w E). split; reflexivity.
  - rewrite calculate_propagators_run by congruence. split; reflexivity.
Qed.

Section TraversalFrame.
Variable P : Propagation.
Hypothesis P_local : local_propagation P.

Lemma element_forward_keeps n el :
  keeps_below n (MultiLayerAtmosphere.element_forward P el).
Proof.
  destruct el as [l|g d]; simpl.
  - apply layer_forward_keeps.
  - apply local_step_keeps, P_local.
Qed.

Lemma element_backward_keeps n el :
  keeps_below n (MultiLayerAtmosphere.element_backward P el).
Proof.
  destruct el as [l|g d]; simpl.
  - apply layer_backward_keeps.
  - apply local_step_keeps, P_local.
Qed.

(** A traversal after the rebuild and the copy. *)
Lemma traversal_frame step (els : World -> list Element) wavefront w :
  (forall n el, keeps_below n (step el)) ->
  wavefront < next_wavefront w ->
  wavefront_at
    (fst ((w0 <- get ;;
           (if _dirty (atmosphere w0)
            then MultiLayerAtmosphere.calculate_propagators else ret tt) ;;
           wf <- copy wavefront ;;
           w1 <- get ;;
           MultiLayerAtmosphere.through step (els w1) wf) w)) wavefront
  = wavefront_at w wavefront.
Proof.
  intros Hstep Hwf.
  unfold bind at 1. unfold get at 1. cbv iota beta.
  unfold bind at 1.
  assert (Hr : wavefront_at
                 (fst ((if _dirty (atmosphere w)
                        then MultiLayerAtmosphere.calculate_propagators
                        else ret tt) w)) = wavefront_at w /\
               next_wavefront
                 (fst ((if _dirty (atmosphere w)
                        then MultiLayerAtmosphere.calculate_propagators
                        else ret tt) w)) = next_wavefront w).
  { destruct (_dirty (atmosphere w)).
    - apply calculate_propagators_wavefronts.
    - split; reflexivity. }
  destruct ((if _dirty (atmosphere w)
             then MultiLayerAtmosphere.calculate_propagators else ret tt) w)
    as [w1 [[]|e]]; cbn [fst] in Hr; destruct Hr as [Hr1 Hr2].
  2:{ cbn [fst]. now rewrite Hr1. }
  unfold bind at 1. unfold copy at 1. cbv iota beta zeta.
  unfold bind at 1. unfold get at 1. cbv iota beta.
  match goal with
  | |- wavefront_at (fst (MultiLayerAtmosphere.through step ?e ?wf ?w2)) _ = _ =>
      destruct (@through_keeps (next_wavefront w1) step e
                  (fun el _ => Hstep (next_wavefront w1) el) wf w2)
        as (_ & K & _)
  end.
  - lia.
  - cbn [next_wavefront]. lia.
  - rewrite K by lia. cbn [wavefront_at].
    rewrite update_other by lia. now rewrite Hr1.
Qed.

Lemma forward_frame wavefront w :
  wavefront < next_wavefront w ->
  wavefront_at (fst (MultiLayerAtmosphere.forward P wavefront w)) wavefront
  = wavefront_at w wavefront.
Proof.
  intros Hwf. unfold MultiLayerAtmosphere.forward.
  apply (traversal_frame (MultiLayerAtmosphere.element_forward P)
           (fun w1 => elements (atmosphere w1))).
  - intros n el. apply element_forward_keeps.
  - exact Hwf.
Qed.

Lemma backward_frame wavefront w :
  wavefront < next_wavefront w ->
  wavefront_at (fst (MultiLayerAtmosphere.backward P wavefront w)) wavefront
  = wavefront_at w wavefront.
Proof.
  intros Hwf. unfold MultiLayerAtmosphere.backward.
  apply (traversal_frame (MultiLayerAtmosphere.element_backward P)
           (fun w1 => rev (elements (atmosphere w1)))).
  - intros n el. apply element_backward_keeps.
  - exact Hwf.
Qed.
End TraversalFrame.

Lemma phase_applied_value factor l wf w f :
  phase_for_method (class_of (layer_at w l)) = Some f ->
  length (values (f (state_of (layer_at w l)) (wavelength (wavefront_at w wf))))
    = length (electric_field (wavefront_at w wf)) ->
  snd (phase_applied factor l wf w) = Ok (next_wavefront w) /\
  wavefront_at (fst (phase_applied factor l wf w)) (next_wavefront w)
  = {| electric_field :=
         zip_with Cmul (electric_field (wavefront_at w wf))
           (map factor
              (values (f (state_of (layer_at w l)) (wavelength (wavefront_at w wf)))));
       wavelength := wavelength (wavefront_at w wf) |}.
Proof.
  intros Hf Hlen. unfold phase_applied, AtmosphericLayer.phase_for. rewrite Hf.
  rewrite imul_same_length by (rewrite length_map; exact Hlen).
  cbn [fst snd with_wavefront wavefront_at]. rewrite update_same.
  split; reflexivity.
Qed.

(** C6.  For a layer whose class implements [phase_for], with a phase
    screen of the size of the field: [forward] returns a new wavefront, the
    copy of the given one with the field multiplied point by point by
    [exp(i phase)], and [backward] likewise with [exp(-i phase)].  Whatever
    the layer and however the call ends, the wavefront given is as it was;
    so it is after [forward] and [backward] of the composite, for every
    propagator that works on the wavefront it is handed or on new ones. *)
Theorem forward_backward_copy (P : Propagation) (w : World) (l wavefront : loc) :
  local_propagation P ->
  wavefront < next_wavefront w ->
  let given := wavefront_at w wavefront in
  (forall f,
     phase_for_method (class_of (layer_at w l)) = Some f ->
     let phase := values (f (state_of (layer_at w l)) (wavelength given)) in
     length phase = length (electric_field given) ->
     (exists wf', snd (AtmosphericLayer.forward l wavefront w) = Ok wf' /\
        wf' <> wavefront /\
        wavefront_at (fst (AtmosphericLayer.forward l wavefront w)) wf'
        = {| electric_field := zip_with Cmul (electric_field given) (map expi phase);
             wavelength := wavelength given |}) /\
     (exists wf', snd (AtmosphericLayer.backward l wavefront w) = Ok wf' /\
        wf' <> wavefront /\
        wavefront_at (fst (AtmosphericLayer.backward l wavefront w)) wf'
        = {| electric_field :=
               zip_with Cmul (electric_field given) (map (fun p => expi (- p)) phase);
             wavelength := wavelength given |})) /\
  wavefront_at (fst (AtmosphericLayer.forward l wavefront w)) wavefront = given /\
  wavefront_at (fst (AtmosphericLayer.backward l wavefront w)) wavefront = given /\
  wavefront_at (fst (MultiLayerAtmosphere.forward P wavefront w)) wavefront = given /\
  wavefront_at (fst (MultiLayerAtmosphere.backward P wavefront w)) wavefront = given.
Proof.
  intros HP Hwf given. split; [|split; [|split; [|split]]].
  - intros f Hf phase Hlen. split.
    + exists (next_wavefront w). rewrite layer_forward_eq.
      destruct (phase_applied_value (fun p => Cexp (Cmul Ci (RtoC p))) l wavefront w Hf Hlen)
        as [Hr Hv].
      split; [exact Hr|]. split; [lia|]. rewrite Hv. f_equal.
      f_equal. apply map_ext. intros p. apply forward_factor.
    + exists (next_wavefront w). rewrite layer_backward_eq.
      destruct (phase_applied_value (fun p => Cexp (Cmul Cneg_i (RtoC p))) l wavefront w Hf Hlen)
        as [Hr Hv].
      split; [exact Hr|]. split; [lia|]. rewrite Hv. f_equal.
      f_equal. apply map_ext. intros p. apply backward_factor.
  - rewrite layer_forward_eq. now apply phase_applied_frame.
  - rewrite layer_backward_eq. now apply phase_applied_frame.
  - now apply forward_frame.
  - now apply backward_frame.
Qed.

Lemma forward_backward_copy_witness :
  wavefront_at
    (fst (MultiLayerAtmosphere.forward copying_propagation 0
            (constructed [100; 5000]%Z true))) 0
  = wavefront_at (constructed [100; 5000]%Z true) 0.
Proof.
  exact (proj1 (proj2 (proj2 (proj2
           (forward_backward_copy (constructed [100; 5000]%Z true) 0
              copying_propagation_local
              (Nat.lt_0_succ 0)))))).
Defined.

(** ** The unwrapped phase *)

Lemma comprehension_raise {A B} (f : A -> result B) xs e :
  comprehension f xs = Raise e -> exists x, In x xs /\ f x = Raise e.
Proof.
  induction xs as [|x xs IH]; simpl; [discriminate|].
  destruct (f x) as [y|e'] eqn:E; simpl.
  - destruct (comprehension f xs) as [ys|e'']; simpl; [discriminate|].
    intros H. inversion H; subst. destruct (IH eq_refl) as (x' & Hin & Hx').
    exists x'. auto.
  - intros H. inversion H; subst. exists x. auto.
Qed.

Lemma comprehension_length {A B} (f : A -> result B) xs ys :
  comprehension f xs = Ok ys -> length ys = length xs.
Proof.
  revert ys. induction xs as [|x xs IH]; simpl; intros ys H.
  - inversion H. reflexivity.
  - destruct (f x) as [y|e]; simpl in H; [|discriminate].
    destruct (comprehension f xs) as [ys'|e]; simpl in H; [|discriminate].
    inversion H; subst. simpl. now rewrite (IH ys' eq_refl).
Qed.

Lemma nth_zip_with_plus r x k :
  length r = length x ->
  nth k (zip_with Rplus r x) 0%R = (nth k r 0 + nth k x 0)%R.
Proof.
  revert x k. induction r as [|a r IH]; intros [|b x] k H; simpl in H; try discriminate.
  - destruct k; simpl; ring.
  - destruct k; simpl; [reflexivity|]. apply IH. lia.
Qed.

Lemma length_zip_with {A B C0} (f : A -> B -> C0) xs ys :
  length xs = length ys -> length (zip_with f xs ys) = length xs.
Proof.
  revert ys. induction xs as [|a xs IH]; intros [|b ys] H; simpl in *; try discriminate.
  - reflexivity.
  - f_equal. apply IH. lia.
Qed.

Lemma list_as_map_nth (r : list R) :
  r = map (fun k => nth k r 0%R) (seq 0 (length r)).
Proof.
  apply (nth_ext _ _ 0%R 0%R).
  - now rewrite length_map, length_seq.
  - intros k Hk. symmetry.
    rewrite (@nth_indep _ (map (fun k => nth k r 0%R) (seq 0 (length r))) k
               0%R ((fun k => nth k r 0%R) 0))
      by (rewrite length_map, length_seq; exact Hk).
    rewrite (map_nth (fun k => nth k r 0%R) (seq 0 (length r)) 0 k).
    rewrite seq_nth by exact Hk. reflexivity.
Qed.

Lemma fold_zip_pointwise n rest : forall r,
  length r = n ->
  Forall (fun row => length row = n) rest ->
  fold_left (zip_with Rplus) rest r
  = map (fun k => fold_left Rplus (map (fun row => nth k row 0%R) rest) (nth k r 0%R))
      (seq 0 n).
Proof.
  induction rest as [|x rest IH]; intros r Hr Hall.
  - simpl. subst n. apply list_as_map_nth.
  - inversion Hall as [|? ? Hx Hrest]; subst.
    cbn [fold_left map]. rewrite IH; [|rewrite length_zip_with; lia|exact Hrest].
    apply map_ext. intros k. rewrite nth_zip_with_plus by lia. reflexivity.
Qed.

Lemma np_sum_axis0_pointwise n rows :
  rows <> [] ->
  Forall (fun row => length row = n) rows ->
  np_sum_axis0 rows = Ok (pointwise_sum n rows).
Proof.
  destruct rows as [|r rest]; [congruence|]. intros _ Hall.
  inversion Hall as [|? ? Hr Hrest]; subst.
  unfold np_sum_axis0.
  assert (E : forallb (fun r' => Nat.eqb (length r') (length r)) rest = true).
  { apply forallb_forall. intros x Hx. rewrite Forall_forall in Hrest.
    apply Nat.eqb_eq. now apply Hrest. }
  rewrite E. f_equal. rewrite (@fold_zip_pointwise (length r) rest r eq_refl Hrest).
  unfold pointwise_sum. apply map_ext. intros k.
  cbn [map fold_left]. now rewrite Rplus_0_l.
Qed.

Lemma phase_for_eq wavelength0 w :
  MultiLayerAtmosphere.phase_for wavelength0 w
  = (w, if _scintillation (atmosphere w)
        then Raise MultiLayerAtmosphere.scintillation_error
        else
          unwrapped_phases <~
            comprehension
              (fun l => AtmosphericLayer.phase_for (class_of (layer_at w l))
                          (state_of (layer_at w l)) wavelength0)
              (_layers (atmosphere w)) ;;
          total <~ np_sum_axis0 (map values unwrapped_phases) ;;
          last_phase <~ getlast unwrapped_phases ;;
          Ok {| values := total; grid := grid last_phase |}).
Proof.
  unfold MultiLayerAtmosphere.phase_for, MultiLayerAtmosphere.get_scintillation,
    MultiLayerAtmosphere.get_layers, bind, get, lift, ret, raise.
  destruct (_scintillation (atmosphere w)); [reflexivity|].
  destruct (comprehension _ _) as [phases|e]; [|reflexivity]. cbn [rbind].
  destruct (np_sum_axis0 _) as [total|e]; [|reflexivity]. cbn [rbind].
  destruct (getlast _) as [p|e]; reflexivity.
Qed.

(** C4.  [phase_for] of the composite raises the error on scintillation
    exactly when scintillation is on.  When it is off, the list of layers
    not empty, and the phase screens of the layers of one size, it returns
    the point-by-point sum of the screens in sequence order on the grid of
    the last one; the store is the same after the call. *)
Theorem phase_for_sums_layers (w : World) (wavelength0 : R) :
  let run := MultiLayerAtmosphere.phase_for wavelength0 w in
  let layer_phase := fun l =>
    AtmosphericLayer.phase_for (class_of (layer_at w l)) (state_of (layer_at w l))
      wavelength0 in
  fst run = w /\
  (snd run = Raise MultiLayerAtmosphere.scintillation_error
   <-> _scintillation (atmosphere w) = true) /\
  (forall phases n,
     _scintillation (atmosphere w) = false ->
     _layers (atmosphere w) <> [] ->
     comprehension layer_phase (_layers (atmosphere w)) = Ok phases ->
     Forall (fun p => length (values p) = n) phases ->
     snd run = Ok {| values := pointwise_sum n (map values phases);
                     grid := grid (last phases no_field) |}).
Proof.
  intros run layer_phase. subst run. rewrite phase_for_eq. cbn [fst snd].
  fold layer_phase.
  split; [reflexivity|].
  destruct (_scintillation (atmosphere w)) eqn:Esc.
  - split; [split; reflexivity|]. discriminate.
  - destruct (comprehension layer_phase (_layers (atmosphere w))) as [phases|e] eqn:Ec;
      cbn [rbind].
    + split.
      * split; [|discriminate].
        unfold np_sum_axis0.
        destruct (map values phases) as [|r rest].
        -- cbn [rbind]. destruct phases; cbn [getlast rbind]; discriminate.
        -- destruct (forallb _ rest); cbn [rbind]; [|discriminate].
           destruct phases; cbn [getlast rbind]; discriminate.
      * intros phases' n _ Hne Hc Hall. inversion Hc; subst phases'.
        assert (Hp : phases <> []).
        { intros E. subst phases. apply comprehension_length in Ec.
          simpl in Ec. symmetry in Ec. apply length_zero_iff_nil in Ec. contradiction. }
        rewrite (@np_sum_axis0_pointwise n (map values phases)).
        -- cbn [rbind].
           rewrite (@getlast_last _ phases no_field Hp).
           reflexivity.
        -- intros E. apply map_eq_nil in E. contradiction.
        -- rewrite Forall_forall in *. intros row Hrow.
           apply in_map_iff in Hrow. destruct Hrow as (p & <- & Hp'). auto.
    + split.
      * split; [|discriminate]. intros H.
        apply comprehension_raise in Ec. destruct Ec as (l & _ & El).
        unfold layer_phase, AtmosphericLayer.phase_for in El.
        destruct (phase_for_method _); [discriminate|].
        inversion El; subst. inversion H.
      * intros phases n _ _ Hc. discriminate.
Qed.

Lemma phase_for_sums_layers_witness :
  snd (MultiLayerAtmosphere.phase_for 1 (constructed [0; 5000]%Z false))
  = Ok {| values := pointwise_sum 2 [[1; 2]; [1; 2]]%R; grid := sample_grid |}.
Proof.
  exact (proj2 (proj2 (phase_for_sums_layers (constructed [0; 5000]%Z false) 1))
           [ {| values := [1; 2]%R; grid := sample_grid |};
             {| values := [1; 2]%R; grid := sample_grid |} ] 2
           eq_refl ltac:(discriminate) eq_refl
           ltac:(repeat constructor)).
Defined.

(** ** The aggregate Cn^2 *)

Lemma comprehension_ext_in {A B} (f g : A -> result B) xs :
  (forall x, In x xs -> f x = g x) -> comprehension f xs = comprehension g xs.
Proof.
  induction xs as [|x xs IH]; intros H; [reflexivity|].
  simpl. rewrite (H x (or_introl eq_refl)).
  rewrite IH by (intros y Hy; apply H; now right). reflexivity.
Qed.

Lemma get_Cn_squared_eq w :
  MultiLayerAtmosphere.get_Cn_squared w
  = (w, strengths <~ comprehension (MultiLayerAtmosphere.layer_Cn_squared w)
                       (_layers (atmosphere w)) ;;
        Ok (fold_left Rplus strengths 0%R)).
Proof.
  unfold MultiLayerAtmosphere.get_Cn_squared, MultiLayerAtmosphere.get_layers,
    bind, get, lift, ret.
  destruct (comprehension _ _); reflexivity.
Qed.

Lemma fold_left_scaled (T X : R) cs : forall a,
  fold_left Rplus (map (fun c => c / T * X)%R cs) (a / T * X)%R
  = (fold_left Rplus cs a / T * X)%R.
Proof.
  induction cs as [|c cs IH]; intros a; [reflexivity|].
  cbn [map fold_left]. rewrite <- IH. f_equal. unfold Rdiv. ring.
Qed.

Lemma layer_Cn_squared_with_layer_other w l s l' :
  l' <> l ->
  MultiLayerAtmosphere.layer_Cn_squared (with_layer l s w) l'
  = MultiLayerAtmosphere.layer_Cn_squared w l'.
Proof.
  intros H. unfold MultiLayerAtmosphere.layer_Cn_squared, with_layer.
  cbn [layer_at]. now rewrite update_other.
Qed.

Section Redistribution.
Variables T X : R.
Hypothesis T_nonzero : T <> 0%R.

Let body : loc -> M World unit := fun l =>
  w <- get ;;
  c <- lift (MultiLayerAtmosphere.layer_Cn_squared w l) ;;
  q <- lift (divide c T) ;;
  s <- lift (AtmosphericLayer.set_Cn_squared (class_of (layer_at w l))
               (state_of (layer_at w l)) (PyFloat (q * X))) ;;
  modify (with_layer l s).

Lemma body_run w l c :
  stores_Cn_squared (class_of (layer_at w l)) ->
  MultiLayerAtmosphere.layer_Cn_squared w l = Ok c ->
  exists s, body l w = (with_layer l s w, Ok tt) /\
            _Cn_squared s = Some (PyFloat (c / T * X)).
Proof.
  intros Hst Hc.
  destruct (Hst (state_of (layer_at w l)) (c / T * X)%R) as (s & Hs & Hv).
  exists s. split; [|exact Hv].
  unfold body, bind, get, lift, modify. rewrite Hc.
  unfold divide. destruct (Req_dec_T T 0); [contradiction|].
  rewrite Hs. reflexivity.
Qed.

Lemma redistribute_loop ls : forall w cs,
  NoDup ls ->
  (forall l, In l ls -> stores_Cn_squared (class_of (layer_at w l))) ->
  comprehension (MultiLayerAtmosphere.layer_Cn_squared w) ls = Ok cs ->
  exists w',
    for_each ls body w = (w', Ok tt) /\
    comprehension (MultiLayerAtmosphere.layer_Cn_squared w') ls
      = Ok (map (fun c => c / T * X)%R cs) /\
    (forall l c, In l ls ->
       MultiLayerAtmosphere.layer_Cn_squared w l = Ok c ->
       MultiLayerAtmosphere.layer_Cn_squared w' l = Ok (c / T * X)%R) /\
    (forall l, ~ In l ls -> layer_at w' l = layer_at w l) /\
    (forall l, class_of (layer_at w' l) = class_of (layer_at w l)) /\
    atmosphere w' = atmosphere w.
Proof.
  induction ls as [|l ls IH]; intros w cs Hnd Hst Hc.
  - simpl in Hc. inversion Hc; subst. exists w. simpl.
    repeat split; auto. intros l c [].
  - inversion Hnd as [|? ? Hnotin Hnd']; subst.
    cbn [comprehension] in Hc.
    destruct (MultiLayerAtmosphere.layer_Cn_squared w l) as [c|e] eqn:Ec;
      cbn [rbind] in Hc; [|discriminate].
    destruct (comprehension (MultiLayerAtmosphere.layer_Cn_squared w) ls)
      as [cs'|e] eqn:Ecs; cbn [rbind] in Hc; [|discriminate].
    inversion Hc; subst cs. clear Hc.
    destruct (body_run w l (Hst l (or_introl eq_refl)) Ec) as (s & Hb & Hv).
    set (w1 := with_layer l s w) in *.
    assert (Hother : forall l', l' <> l ->
              MultiLayerAtmosphere.layer_Cn_squared w1 l'
              = MultiLayerAtmosphere.layer_Cn_squared w l')
      by (intros; now apply layer_Cn_squared_with_layer_other).
    assert (Hcls : forall l', class_of (layer_at w1 l') = class_of (layer_at w l')).
    { intros l'. unfold w1, with_layer. cbn [layer_at]. unfold update.
      destruct (Nat.eqb_spec l' l); [subst; reflexivity | reflexivity]. }
    destruct (IH w1 cs' Hnd') as (w' & Hrun & Hcomp & Heach & Hrest & Hcls' & Hatm).
    { intros l' Hl'. rewrite Hcls. apply Hst. now right. }
    { rewrite <- Ecs. apply comprehension_ext_in. intros l' Hl'.
      apply Hother. intros ->. contradiction. }
    assert (Hl : MultiLayerAtmosphere.layer_Cn_squared w' l = Ok (c / T * X)%R).
    { unfold MultiLayerAtmosphere.layer_Cn_squared. rewrite (Hrest l Hnotin).
      unfold w1, with_layer. cbn [layer_at]. rewrite update_same.
      cbn [state_of]. unfold AtmosphericLayer.get_Cn_squared. rewrite Hv.
      reflexivity. }
    exists w'. split; [|split; [|split; [|split; [|split]]]].
    + cbn [for_each]. unfold bind at 1. rewrite Hb. exact Hrun.
    + cbn [comprehension map]. rewrite Hl, Hcomp. reflexivity.
    + intros l' c' [->|Hin] Hc'.
      * rewrite Ec in Hc'. inversion Hc'; subst. exact Hl.
      * apply Heach; [exact Hin|]. rewrite Hother; [exact Hc'|].
        intros ->. contradiction.
    + intros l' Hl'. rewrite Hrest by (intros Hin; apply Hl'; now right).
      unfold w1, with_layer. cbn [layer_at]. apply update_other.
      intros ->. apply Hl'. now left.
    + intros l'. now rewrite Hcls', Hcls.
    + rewrite Hatm. reflexivity.
Qed.
End Redistribution.

(** C3, as the code has it.  The aggregate getter is the sum of the values
    of the layers.  For
    layers that are distinct objects of classes whose setter stores, with
    aggregate [T > 0]: setting the aggregate to [X] returns normally, each
    layer then has its old value divided by [T] times [X], and the
    aggregate read next is [X]. *)
Theorem Cn_squared_redistributed (w : World) (T X : R) :
  let layers := _layers (atmosphere w) in
  let w' := fst (MultiLayerAtmosphere.set_Cn_squared X w) in
  NoDup layers ->
  (forall l, In l layers -> stores_Cn_squared (class_of (layer_at w l))) ->
  snd (MultiLayerAtmosphere.get_Cn_squared w) = Ok T ->
  (0 < T)%R ->
  (exists strengths,
     comprehension (MultiLayerAtmosphere.layer_Cn_squared w) layers = Ok strengths /\
     T = fold_left Rplus strengths 0%R) /\
  snd (MultiLayerAtmosphere.set_Cn_squared X w) = Ok tt /\
  (forall l c, In l layers ->
     MultiLayerAtmosphere.layer_Cn_squared w l = Ok c ->
     MultiLayerAtmosphere.layer_Cn_squared w' l = Ok (c / T * X)%R) /\
  (exists strengths',
     comprehension (MultiLayerAtmosphere.layer_Cn_squared w') layers = Ok strengths' /\
     X = fold_left Rplus strengths' 0%R) /\
  snd (MultiLayerAtmosphere.get_Cn_squared w') = Ok X.
Proof.
  intros layers w' Hnd Hst Hget HT.
  assert (T_nonzero : T <> 0%R) by lra.
  rewrite get_Cn_squared_eq in Hget. cbn [snd] in Hget. fold layers in Hget.
  destruct (comprehension (MultiLayerAtmosphere.layer_Cn_squared w) layers)
    as [cs|e] eqn:Ecs; cbn [rbind] in Hget; [|discriminate].
  injection Hget as HT'.
  destruct (@redistribute_loop T X T_nonzero layers w cs Hnd Hst Ecs)
    as (w1 & Hrun & Hcomp & Heach & _ & _ & Hatm).
  assert (Hset : MultiLayerAtmosphere.set_Cn_squared X w = (w1, Ok tt)).
  { unfold MultiLayerAtmosphere.set_Cn_squared. unfold bind at 1.
    rewrite get_Cn_squared_eq. fold layers. rewrite Ecs. cbn [rbind].
    rewrite HT'. unfold bind at 1. unfold get at 1. cbv iota beta.
    unfold MultiLayerAtmosphere.get_layers. fold layers. exact Hrun. }
  assert (Hsum : fold_left Rplus (map (fun c => c / T * X)%R cs) 0%R = X).
  { replace 0%R with (0 / T * X)%R at 1 by (unfold Rdiv; ring).
    rewrite fold_left_scaled, HT'. field. exact T_nonzero. }
  subst w'. rewrite Hset. cbn [fst snd].
  split; [exists cs; split; [reflexivity | now symmetry]|].
  split; [reflexivity|]. split; [exact Heach|]. split.
  - exists (map (fun c => c / T * X)%R cs). unfold layers. rewrite <- Hatm.
    rewrite Hatm at 1. fold layers. split; [exact Hcomp | now symmetry].
  - rewrite get_Cn_squared_eq. cbn [snd]. rewrite Hatm. fold layers.
    rewrite Hcomp. cbn [rbind]. now rewrite Hsum.
Qed.

Lemma FixedScreen_stores screen : stores_Cn_squared (FixedScreen screen).
Proof. intros self v. eexists. split; reflexivity. Qed.

Lemma Cn_squared_redistributed_witness :
  snd (MultiLayerAtmosphere.get_Cn_squared
         (fst (MultiLayerAtmosphere.set_Cn_squared 4
                 (constructed [0; 5000]%Z false))))
  = Ok 4%R.
Proof.
  refine (proj2 (proj2 (proj2 (proj2
            (@Cn_squared_redistributed (constructed [0; 5000]%Z false)
               (0 + 1 + 1)%R 4%R _ _ eq_refl _))))).
  - repeat constructor; simpl; intuition discriminate.
  - intros l _. apply FixedScreen_stores.
  - lra.
Defined.

(** C3, where the specification and the code part: a layer that is in the
    list twice is rescaled twice, so that it does not end at its old value
    divided by [T] times [X], nor the aggregate at [X]. *)
Lemma duplicated_layer_rescaled_twice :
  let w := constructed_from [0; 0] [0]%Z false in
  let w' := fst (MultiLayerAtmosphere.set_Cn_squared 4 w) in
  snd (MultiLayerAtmosphere.get_Cn_squared w) = Ok (0 + 1 + 1)%R /\
  MultiLayerAtmosphere.layer_Cn_squared w 0 = Ok 1%R /\
  snd (MultiLayerAtmosphere.set_Cn_squared 4 w) = Ok tt /\
  MultiLayerAtmosphere.layer_Cn_squared w' 0 <> Ok (1 / (0 + 1 + 1) * 4)%R /\
  snd (MultiLayerAtmosphere.get_Cn_squared w') <> Ok 4%R.
Proof.
  cbv zeta.
  assert (E : MultiLayerAtmosphere.set_Cn_squared 4 (constructed_from [0; 0] [0]%Z false)
              = (with_layer 0
                   (state_of (sample_layer [1; 2]%R (1 / (0 + 1 + 1) * 4 / (0 + 1 + 1) * 4) 0))
                   (with_layer 0
                      (state_of (sample_layer [1; 2]%R (1 / (0 + 1 + 1) * 4) 0))
                      (constructed_from [0; 0] [0]%Z false)), Ok tt)).
  { unfold MultiLayerAtmosphere.set_Cn_squared. unfold bind at 1.
    rewrite get_Cn_squared_eq.
    change (_layers (atmosphere (constructed_from [0; 0] [0]%Z false))) with [0; 0].
    cbn [comprehension]. 
    change (MultiLayerAtmosphere.layer_Cn_squared (constructed_from [0; 0] [0]%Z false) 0)
      with (@Ok R 1%R).
    cbn [rbind fold_left]. unfold bind at 1. unfold get at 1. cbv iota beta.
    change (MultiLayerAtmosphere.get_layers (constructed_from [0; 0] [0]%Z false))
      with [0; 0].
    cbn [for_each]. unfold bind, get, lift, modify, ret, divide.
    change (MultiLayerAtmosphere.layer_Cn_squared (constructed_from [0; 0] [0]%Z false) 0)
      with (@Ok R 1%R).
    destruct (Req_dec_T (0 + 1 + 1) 0) as [Hz|_]; [lra|].
    reflexivity. }
  rewrite E. cbn [fst snd].
  split; [reflexivity|]. split; [reflexivity|]. split; [reflexivity|]. split.
  - change (MultiLayerAtmosphere.layer_Cn_squared _ 0)
      with (@Ok R (1 / (0 + 1 + 1) * 4 / (0 + 1 + 1) * 4)%R).
    intros H. injection H as H. lra.
  - rewrite get_Cn_squared_eq. cbn [snd].
    change (snd _) with (@Ok R (0 + (1 / (0 + 1 + 1) * 4 / (0 + 1 + 1) * 4)
                                  + (1 / (0 + 1 + 1) * 4 / (0 + 1 + 1) * 4))%R).
    intros H. injection H as H. lra.
Qed.

(** ** The abstract layer *)

(** C10.  [AtmosphericLayer] itself cannot be constructed: whatever the
    arguments, [__init__] raises [NotImplementedError], at the assignment of
    [Cn_squared].  A class whose [__init__] returns has overridden the
    setter of [Cn_squared], and that of the outer scale under one of its two
    names. *)
Theorem base_layer_not_constructible :
  (forall self grid0 Cn_squared L0 velocity height0,
     AtmosphericLayer.__init__ AtmosphericLayer.base self grid0 Cn_squared L0
       velocity height0
     = Raise NotImplementedError) /\
  (forall K self grid0 Cn_squared L0 velocity height0 self',
     AtmosphericLayer.__init__ K self grid0 Cn_squared L0 velocity height0 = Ok self' ->
     Cn_squared_setter K <> None /\
     (outer_scale_setter K <> None \/ L0_setter K <> None)).
Proof.
  split.
  - reflexivity.
  - intros K self grid0 Cn_squared L0 velocity height0 self'.
    unfold AtmosphericLayer.__init__, AtmosphericLayer.set_Cn_squared,
      AtmosphericLayer.set_L0, AtmosphericLayer.set_outer_scale.
    destruct (Cn_squared_setter K) as [f|]; [|discriminate].
    destruct (f _ Cn_squared) as [self1|e]; [|discriminate]. cbn [rbind].
    intros H. split; [discriminate|].
    destruct (L0_setter K) as [g|]; [right; discriminate|].
    destruct (outer_scale_setter K) as [g|]; [left; discriminate|].
    discriminate.
Qed.

Lemma base_layer_not_constructible_witness :
  Cn_squared_setter (FixedScreen []) <> None /\
  (outer_scale_setter (FixedScreen []) <> None \/ L0_setter (FixedScreen []) <> None).
Proof.
  exact (proj2 base_layer_not_constructible (FixedScreen []) new_layer sample_grid
           (PyFloat 1) PyInf (Scalar 0) 0%Z _ eq_refl).
Defined.

(** ** Conversions *)

Lemma wavenumber_nonzero (wavelength0 : R) :
  wavelength0 <> 0%R -> (2 * PI / wavelength0 <> 0)%R.
Proof.
  intros H. pose proof PI_RGT_0. unfold Rdiv.
  apply Rmult_integral_contrapositive_currified; [lra|].
  now apply Rinv_neq_0_compat.
Qed.

Lemma Rpower_inverse_exponents (x p q : R) :
  (0 < x)%R -> (p * q = 1)%R -> Rpower (Rpower x p) q = x.
Proof.
  intros Hx Hpq. rewrite Rpower_mult, Hpq. now apply Rpower_1.
Qed.

(** C5.  In real arithmetic, for a positive wavelength: the Fried parameter
    got from the Cn^2 of a positive Fried parameter is that parameter, and
    the other way round for a positive Cn^2; the seeing got from the Fried
    parameter of a positive seeing is that seeing, and the other way
    round. *)
Theorem conversions_are_inverses (wavelength0 : R) :
  (0 < wavelength0)%R ->
  (forall r0, (0 < r0)%R ->
     fried_parameter_from_Cn_squared
       (Cn_squared_from_fried_parameter r0 wavelength0) wavelength0 = r0) /\
  (forall Cn_squared, (0 < Cn_squared)%R ->
     Cn_squared_from_fried_parameter
       (fried_parameter_from_Cn_squared Cn_squared wavelength0) wavelength0
     = Cn_squared) /\
  (forall seeing, (0 < seeing)%R ->
     fried_parameter_to_seeing
       (seeing_to_fried_parameter seeing wavelength0) wavelength0 = seeing) /\
  (forall r0, (0 < r0)%R ->
     seeing_to_fried_parameter
       (fried_parameter_to_seeing r0 wavelength0) wavelength0 = r0).
Proof.
  intros Hw.
  assert (Hw0 : wavelength0 <> 0%R) by lra.
  pose proof (wavenumber_nonzero Hw0) as Hk.
  pose proof PI_RGT_0 as Hpi.
  split; [|split; [|split]].
  - intros r0 Hr.
    unfold fried_parameter_from_Cn_squared, Cn_squared_from_fried_parameter.
    cbv zeta.
    replace (0.423 * (Rpower r0 (-5 / 3) / (0.423 * (2 * PI / wavelength0) ^ 2))
             * (2 * PI / wavelength0) ^ 2)%R
      with (Rpower r0 (-5 / 3)) by (field; split; lra).
    apply Rpower_inverse_exponents; [exact Hr | field].
  - intros c Hc.
    unfold fried_parameter_from_Cn_squared, Cn_squared_from_fried_parameter.
    cbv zeta.
    assert (Hpos : (0 < 0.423 * c * (2 * PI / wavelength0) ^ 2)%R).
    { apply Rmult_lt_0_compat; [lra|]. apply pow_lt.
      apply Rdiv_lt_0_compat; lra. }
    rewrite Rpower_inverse_exponents; [|exact Hpos|field].
    field. split; lra.
  - intros s Hs.
    unfold fried_parameter_to_seeing, seeing_to_fried_parameter, degrees, radians.
    field. repeat split; lra.
  - intros r0 Hr.
    unfold fried_parameter_to_seeing, seeing_to_fried_parameter, degrees, radians.
    field. repeat split; lra.
Qed.

Lemma conversions_are_inverses_witness :
  fried_parameter_from_Cn_squared
    (Cn_squared_from_fried_parameter 0.1 default_wavelength) default_wavelength
  = 0.1%R.
Proof.
  refine (proj1 (@conversions_are_inverses default_wavelength _) 0.1%R _).
  - unfold default_wavelength. lra.
  - lra.
Defined.

(** ** The power spectral density *)

Lemma zip_with_maps {A B C0 D} (f : B -> C0 -> D) (a : A -> B) (b : B -> C0) l :
  zip_with f (map a l) (map b (map a l)) = map (fun x => f (a x) (b (a x))) l.
Proof. induction l as [|x l IH]; simpl; [reflexivity | now rewrite IH]. Qed.

Lemma nth_map_in_range {A} (F : A -> R) l k d :
  k < length l -> nth k (map F l) 0%R = F (nth k l d).
Proof.
  intros H. rewrite (nth_indep _ 0%R (F d)) by (now rewrite length_map).
  apply map_nth.
Qed.

Lemma Rpower_pos x y : (0 < Rpower x y)%R.
Proof. unfold Rpower. apply exp_pos. Qed.

(** C7, as the code has it.  At a grid point with radial coordinate [r] the
    generator works with [u = r + 1e-10]: the value is 0 where [u < 1e-9],
    that is where [r < 9e-10], and elsewhere it is the Von Karman
    expression in [u], which is positive. *)
Theorem power_spectral_density_values (r0 L0 : R) (g : Grid) (k : nat) :
  (0 < r0)%R -> (0 < L0)%R -> k < length (polar_r g) ->
  let r := nth k (polar_r g) 0%R in
  let u := (r + 1e-10)%R in
  let u0 := (2 * PI / L0)%R in
  let value := nth k (values (power_spectral_density_von_karman r0 L0 g)) 0%R in
  grid (power_spectral_density_von_karman r0 L0 g) = g /\
  length (values (power_spectral_density_von_karman r0 L0 g)) = length (polar_r g) /\
  (u < 1e-9 <-> r < 9e-10)%R /\
  ((u < 1e-9)%R -> value = 0%R) /\
  ((1e-9 <= u)%R ->
     value = (0.0229 * Rpower ((u ^ 2 + u0 ^ 2) / (2 * PI) ^ 2) (-11 / 6)
              * Rpower r0 (-5 / 3))%R /\
     (0 < (u ^ 2 + u0 ^ 2) / (2 * PI) ^ 2)%R /\
     (0 < value)%R).
Proof.
  intros Hr0 HL0 Hk r u u0 value.
  assert (Hval : values (power_spectral_density_von_karman r0 L0 g)
                 = map (fun r => if Rlt_dec (r + 1e-10) 1e-9 then 0%R
                                 else (0.0229
                                       * Rpower (((r + 1e-10) ^ 2 + u0 ^ 2) / (2 * PI) ^ 2)
                                           (-11 / 6)
                                       * Rpower r0 (-5 / 3))%R) (polar_r g)).
  { unfold power_spectral_density_von_karman. cbn [values].
    apply (zip_with_maps (fun u x => if Rlt_dec u 1e-9 then 0%R else x)
             (fun r => (r + 1e-10)%R)). }
  subst value. rewrite Hval, length_map.
  rewrite (nth_map_in_range _ _ 0%R Hk). fold r. fold u.
  split; [reflexivity|]. split; [reflexivity|]. split; [unfold u; lra|].
  split.
  - intros Hu. destruct (Rlt_dec u 1e-9); [reflexivity | contradiction].
  - intros Hu. destruct (Rlt_dec u 1e-9) as [Hlt|_]; [lra|].
    split; [reflexivity|]. pose proof PI_RGT_0 as Hpi. split.
    + apply Rdiv_lt_0_compat.
      * assert (0 < u0)%R by (unfold u0; apply Rdiv_lt_0_compat; lra).
        assert (0 <= u ^ 2)%R by apply pow2_ge_0.
        assert (0 < u0 ^ 2)%R by (apply pow_lt; assumption). lra.
      * apply pow_lt. lra.
    + apply Rmult_lt_0_compat; [apply Rmult_lt_0_compat; [lra|]|]; apply Rpower_pos.
Qed.

Lemma power_spectral_density_values_witness :
  nth 0 (values (power_spectral_density_von_karman 1 1 sample_grid)) 0%R = 0%R.
Proof.
  refine (proj1 (proj2 (proj2 (proj2
            (@power_spectral_density_values 1 1 sample_grid 0 _ _ _)))) _).
  - lra.
  - lra.
  - simpl. lia.
  - simpl. lra.
Defined.

(** C7, where the specification and the code part: a radial coordinate
    below 1e-9 at which the value is not 0. *)
Lemma power_spectral_density_nonzero_below_threshold :
  let g := {| polar_r := [9.5e-10%R] |} in
  (0 < 1)%R /\ (nth 0 (polar_r g) 0 < 1e-9)%R /\
  nth 0 (values (power_spectral_density_von_karman 1 1 g)) 0%R <> 0%R.
Proof.
  cbv zeta. split; [lra|]. split; [simpl; lra|].
  unfold power_spectral_density_von_karman. cbn [polar_r map zip_with values nth].
  destruct (Rlt_dec (9.5e-10 + 1e-10) 1e-9) as [Hlt|_]; [lra|].
  apply Rgt_not_eq.
  apply Rmult_lt_0_compat; [apply Rmult_lt_0_compat; [lra|]|]; apply Rpower_pos.
Qed.

(** * Further properties *)

(** ** A layer is a pure phase *)

Lemma Cmul_expi_cancel z p : Cmul (Cmul z (expi p)) (expi (- p)) = z.
Proof.
  destruct z as [a b]. unfold Cmul, expi. cbn [fst snd].
  rewrite cos_neg, sin_neg. pose proof (sin2_cos2 p) as H. unfold Rsqr in H.
  f_equal.
  - replace ((a * cos p - b * sin p) * cos p - (a * sin p + b * cos p) * - sin p)%R
      with (a * (sin p * sin p + cos p * cos p))%R by ring.
    rewrite H. ring.
  - replace ((a * cos p - b * sin p) * - sin p + (a * sin p + b * cos p) * cos p)%R
      with (b * (sin p * sin p + cos p * cos p))%R by ring.
    rewrite H. ring.
Qed.

Lemma Cnorm2_expi z p : Cnorm2 (Cmul z (expi p)) = Cnorm2 z.
Proof.
  destruct z as [a b]. unfold Cnorm2, Cmul, expi. cbn [fst snd].
  pose proof (sin2_cos2 p) as H. unfold Rsqr in H.
  replace ((a * cos p - b * sin p) * (a * cos p - b * sin p)
           + (a * sin p + b * cos p) * (a * sin p + b * cos p))%R
    with ((a * a + b * b) * (sin p * sin p + cos p * cos p))%R by ring.
  rewrite H. ring.
Qed.

Lemma Cmul_expi_plus z p q : Cmul (Cmul z (expi p)) (expi q) = Cmul z (expi (p + q)).
Proof.
  destruct z as [a b]. unfold Cmul, expi. cbn [fst snd].
  rewrite cos_plus, sin_plus. f_equal; ring.
Qed.

Lemma zip_cancel E : forall phase,
  length phase = length E ->
  zip_with Cmul (zip_with Cmul E (map expi phase)) (map (fun p => expi (- p)) phase) = E.
Proof.
  induction E as [|z E IH]; intros [|p phase] H; simpl in H; try discriminate.
  - reflexivity.
  - cbn [map zip_with]. rewrite Cmul_expi_cancel, IH by lia. reflexivity.
Qed.

Lemma zip_norm E : forall phase,
  length phase = length E ->
  map Cnorm2 (zip_with Cmul E (map expi phase)) = map Cnorm2 E.
Proof.
  induction E as [|z E IH]; intros [|p phase] H; simpl in H; try discriminate.
  - reflexivity.
  - cbn [map zip_with]. rewrite Cnorm2_expi, IH by lia. reflexivity.
Qed.

Lemma phase_applied_layers factor l wf w :
  layer_at (fst (phase_applied factor l wf w)) = layer_at w /\
  atmosphere (fst (phase_applied factor l wf w)) = atmosphere w.
Proof.
  unfold phase_applied.
  destruct (AtmosphericLayer.phase_for _ _ _) as [phase|e]; [|split; reflexivity].
  destruct (imul _ _) as [field|e]; split; reflexivity.
Qed.

(** X1.  [backward] after [forward] of one layer gives a wavefront equal to
    the one given: the two phase factors cancel. *)
Theorem layer_backward_after_forward (w : World) (l wavefront : loc) f :
  phase_for_method (class_of (layer_at w l)) = Some f ->
  length (values (f (state_of (layer_at w l)) (wavelength (wavefront_at w wavefront))))
    = length (electric_field (wavefront_at w wavefront)) ->
  exists wf1 wf2,
    snd (AtmosphericLayer.forward l wavefront w) = Ok wf1 /\
    snd (AtmosphericLayer.backward l wf1 (fst (AtmosphericLayer.forward l wavefront w)))
      = Ok wf2 /\
    wavefront_at
      (fst (AtmosphericLayer.backward l wf1 (fst (AtmosphericLayer.forward l wavefront w))))
      wf2
    = wavefront_at w wavefront.
Proof.
  intros Hf Hlen.
  destruct (phase_applied_value (fun p => Cexp (Cmul Ci (RtoC p))) l wavefront w Hf Hlen)
    as [Hr Hv].
  pose proof (phase_applied_layers (fun p => Cexp (Cmul Ci (RtoC p))) l wavefront w)
    as [Hl _].
  exists (next_wavefront w), (S (next_wavefront w)).
  rewrite layer_forward_eq. split; [exact Hr|].
  set (w1 := fst (phase_applied (fun p => Cexp (Cmul Ci (RtoC p))) l wavefront w)) in *.
  assert (Hf1 : phase_for_method (class_of (layer_at w1 l)) = Some f) by now rewrite Hl.
  assert (Hnext : next_wavefront w1 = S (next_wavefront w))
    by apply phase_applied_next.
  assert (Hlen1 : length (values (f (state_of (layer_at w1 l))
                                    (wavelength (wavefront_at w1 (next_wavefront w)))))
                  = length (electric_field (wavefront_at w1 (next_wavefront w)))).
  { rewrite Hv, Hl. cbn [wavelength electric_field].
    rewrite length_zip_with; [exact Hlen | now rewrite length_map]. }
  destruct (phase_applied_value (fun p => Cexp (Cmul Cneg_i (RtoC p))) l
              (next_wavefront w) w1 Hf1 Hlen1) as [Hr2 Hv2].
  rewrite layer_backward_eq, Hnext in *. split; [exact Hr2|].
  rewrite Hv2, Hv, Hl. cbn [wavelength electric_field].
  rewrite (map_ext _ _ forward_factor), (map_ext _ _ backward_factor).
  rewrite zip_cancel by exact Hlen.
  destruct (wavefront_at w wavefront); reflexivity.
Qed.

Lemma layer_backward_after_forward_witness :
  exists wf1 wf2,
    snd (AtmosphericLayer.forward 0 0 (constructed [0; 5000]%Z false)) = Ok wf1 /\
    snd (AtmosphericLayer.backward 0 wf1
           (fst (AtmosphericLayer.forward 0 0 (constructed [0; 5000]%Z false)))) = Ok wf2 /\
    wavefront_at
      (fst (AtmosphericLayer.backward 0 wf1
              (fst (AtmosphericLayer.forward 0 0 (constructed [0; 5000]%Z false))))) wf2
    = wavefront_at (constructed [0; 5000]%Z false) 0.
Proof.
  exact (@layer_backward_after_forward (constructed [0; 5000]%Z false) 0 0 _
           eq_refl eq_refl).
Defined.

(** X2.  [forward] and [backward] of a layer leave the intensity of every
    sample of the field as it was. *)
Theorem layer_keeps_intensity (w : World) (l wavefront : loc) f :
  phase_for_method (class_of (layer_at w l)) = Some f ->
  length (values (f (state_of (layer_at w l)) (wavelength (wavefront_at w wavefront))))
    = length (electric_field (wavefront_at w wavefront)) ->
  (exists wf', snd (AtmosphericLayer.forward l wavefront w) = Ok wf' /\
     map Cnorm2 (electric_field
                   (wavefront_at (fst (AtmosphericLayer.forward l wavefront w)) wf'))
     = map Cnorm2 (electric_field (wavefront_at w wavefront))) /\
  (exists wf', snd (AtmosphericLayer.backward l wavefront w) = Ok wf' /\
     map Cnorm2 (electric_field
                   (wavefront_at (fst (AtmosphericLayer.backward l wavefront w)) wf'))
     = map Cnorm2 (electric_field (wavefront_at w wavefront))).
Proof.
  intros Hf Hlen. split.
  - destruct (phase_applied_value (fun p => Cexp (Cmul Ci (RtoC p))) l wavefront w Hf Hlen)
      as [Hr Hv].
    exists (next_wavefront w). rewrite layer_forward_eq. split; [exact Hr|].
    rewrite Hv. cbn [electric_field].
    rewrite (map_ext _ _ forward_factor). apply zip_norm. exact Hlen.
  - destruct (phase_applied_value (fun p => Cexp (Cmul Cneg_i (RtoC p))) l wavefront w Hf Hlen)
      as [Hr Hv].
    exists (next_wavefront w). rewrite layer_backward_eq. split; [exact Hr|].
    rewrite Hv. cbn [electric_field].
    rewrite (map_ext _ _ backward_factor).
    rewrite <- (map_map Ropp expi). apply zip_norm. now rewrite length_map.
Qed.

Lemma layer_keeps_intensity_witness :
  exists wf', snd (AtmosphericLayer.forward 0 0 (constructed [0; 5000]%Z false)) = Ok wf' /\
     map Cnorm2 (electric_field
                   (wavefront_at
                      (fst (AtmosphericLayer.forward 0 0 (constructed [0; 5000]%Z false)))
                      wf'))
     = map Cnorm2 (electric_field (wavefront_at (constructed [0; 5000]%Z false) 0)).
Proof.
  exact (proj1 (@layer_keeps_intensity (constructed [0; 5000]%Z false) 0 0 _
                  eq_refl eq_refl)).
Defined.

(** ** The composite without scintillation is the sum of its phases *)

Lemma fold_left_Rplus_perm l l' :
  Permutation l l' -> forall a, fold_left Rplus l a = fold_left Rplus l' a.
Proof.
  induction 1 as [|x l l' _ IH|x y l|l l' l'' _ IH1 _ IH2]; intros a; cbn [fold_left].
  - reflexivity.
  - apply IH.
  - f_equal. ring.
  - now rewrite IH1.
Qed.

Lemma pointwise_sum_perm n rows rows' :
  Permutation rows rows' -> pointwise_sum n rows = pointwise_sum n rows'.
Proof.
  intros Hp. unfold pointwise_sum. apply map_ext. intros k.
  apply fold_left_Rplus_perm. now apply Permutation_map.
Qed.

Lemma pointwise_sum_length n rows : length (pointwise_sum n rows) = n.
Proof. unfold pointwise_sum. now rewrite length_map, length_seq. Qed.

Lemma fold_left_Rplus_opp l : forall a,
  fold_left Rplus (map Ropp l) (- a)%R = (- fold_left Rplus l a)%R.
Proof.
  induction l as [|x l IH]; intros a; cbn [map fold_left]; [reflexivity|].
  rewrite <- IH. f_equal. ring.
Qed.

Lemma nth_map_opp row k : nth k (map Ropp row) 0%R = (- nth k row 0)%R.
Proof.
  rewrite <- (map_nth Ropp). f_equal. ring.
Qed.

Lemma pointwise_sum_opp n rows :
  pointwise_sum n (map (map Ropp) rows) = map Ropp (pointwise_sum n rows).
Proof.
  unfold pointwise_sum. rewrite map_map. apply map_ext. intros k.
  rewrite map_map.
  rewrite (map_ext (fun row => nth k (map Ropp row) 0%R)
             (fun row => (- nth k row 0)%R)) by (intros; apply nth_map_opp).
  rewrite <- (map_map (fun row => nth k row 0%R) Ropp).
  replace 0%R with (- 0)%R at 1 by ring.
  apply fold_left_Rplus_opp.
Qed.

Lemma zip_expi_plus E : forall A B,
  zip_with Cmul (zip_with Cmul E (map expi A)) (map expi B)
  = zip_with Cmul E (map expi (zip_with Rplus A B)).
Proof.
  induction E as [|z E IH]; intros [|a A] [|b B]; try reflexivity.
  cbn [map zip_with]. rewrite Cmul_expi_plus, IH. reflexivity.
Qed.

Lemma fold_expi_rows rows : forall E A,
  fold_left (fun E row => zip_with Cmul E (map expi row)) rows
    (zip_with Cmul E (map expi A))
  = zip_with Cmul E (map expi (fold_left (zip_with Rplus) rows A)).
Proof.
  induction rows as [|row rows IH]; intros E A; [reflexivity|].
  cbn [fold_left]. rewrite zip_expi_plus. apply IH.
Qed.

Lemma zip_expi_zero E :
  zip_with Cmul E (map expi (repeat 0%R (length E))) = E.
Proof.
  induction E as [|[a b] E IH]; [reflexivity|].
  cbn [length repeat map zip_with]. rewrite IH. f_equal.
  unfold Cmul, expi. cbn [fst snd]. rewrite cos_0, sin_0. f_equal; ring.
Qed.

Lemma nth_repeat_zero n k : nth k (repeat 0%R n) 0%R = 0%R.
Proof.
  revert k. induction n as [|n IH]; intros [|k]; simpl; auto.
Qed.

(** The phases of the rows applied one after another are the phase of
    their sum applied once. *)
Lemma fold_expi_pointwise rows E :
  Forall (fun row => length row = length E) rows ->
  fold_left (fun E row => zip_with Cmul E (map expi row)) rows E
  = zip_with Cmul E (map expi (pointwise_sum (length E) rows)).
Proof.
  intros Hall.
  rewrite <- (zip_expi_zero E) at 1. rewrite fold_expi_rows.
  rewrite (@fold_zip_pointwise (length E) rows (repeat 0%R (length E)))
    by (try apply repeat_length; exact Hall).
  f_equal. f_equal. unfold pointwise_sum. apply map_ext. intros k.
  now rewrite nth_repeat_zero.
Qed.

Lemma map_nth_seq {A} (l : list A) d :
  map (fun j => nth j l d) (seq 0 (length l)) = l.
Proof.
  apply (nth_ext _ _ d d).
  - now rewrite length_map, length_seq.
  - intros k Hk. rewrite length_map, length_seq in Hk.
    rewrite (@nth_indep _ (map (fun j => nth j l d) (seq 0 (length l))) k
               d ((fun j => nth j l d) 0))
      by (rewrite length_map, length_seq; exact Hk).
    rewrite (map_nth (fun j => nth j l d) (seq 0 (length l)) 0 k).
    now rewrite seq_nth.
Qed.

(** The layers in visiting order are the layers of the list, each once. *)
Lemma sorted_layers_perm w :
  Permutation (map (fun j => nth j (_layers (atmosphere w)) 0) (sorted_indices w))
    (_layers (atmosphere w)).
Proof.
  apply Permutation_trans
    with (map (fun j => nth j (_layers (atmosphere w)) 0)
            (seq 0 (length (_layers (atmosphere w)))));
    [|rewrite map_nth_seq; apply Permutation_refl].
  apply Permutation_map. unfold sorted_indices, heights_of.
  rewrite <- (length_map (fun l => height (state_of (layer_at w l)))).
  rewrite <- (length_map Z.opp). apply argsort_perm.
Qed.

Lemma phase_applied_ok factor l wf w p :
  AtmosphericLayer.phase_for (class_of (layer_at w l)) (state_of (layer_at w l))
    (wavelength (wavefront_at w wf)) = Ok p ->
  length (values p) = length (electric_field (wavefront_at w wf)) ->
  phase_applied factor l wf w
  = (with_wavefront (next_wavefront w)
       {| electric_field :=
            zip_with Cmul (electric_field (wavefront_at w wf)) (map factor (values p));
          wavelength := wavelength (wavefront_at w wf) |}
       (fst (copy wf w)), Ok (next_wavefront w)).
Proof.
  intros Hp Hlen. unfold phase_applied. rewrite Hp.
  rewrite imul_same_length by (rewrite length_map; exact Hlen). reflexivity.
Qed.

Lemma traverse_layers step factor ls : forall w wf,
  (forall l wf0 w0, step (LayerElement l) wf0 w0 = phase_applied factor l wf0 w0) ->
  (forall l, In l ls ->
     exists p,
       AtmosphericLayer.phase_for (class_of (layer_at w l)) (state_of (layer_at w l))
         (wavelength (wavefront_at w wf)) = Ok p /\
       length (values p) = length (electric_field (wavefront_at w wf))) ->
  exists wf',
    snd (MultiLayerAtmosphere.through step (map LayerElement ls) wf w) = Ok wf' /\
    layer_at (fst (MultiLayerAtmosphere.through step (map LayerElement ls) wf w))
      = layer_at w /\
    atmosphere (fst (MultiLayerAtmosphere.through step (map LayerElement ls) wf w))
      = atmosphere w /\
    electric_field
      (wavefront_at (fst (MultiLayerAtmosphere.through step (map LayerElement ls) wf w)) wf')
      = fold_left (fun E row => zip_with Cmul E (map factor row))
          (map (screen_of w (wavelength (wavefront_at w wf))) ls)
          (electric_field (wavefront_at w wf)) /\
    wavelength
      (wavefront_at (fst (MultiLayerAtmosphere.through step (map LayerElement ls) wf w)) wf')
      = wavelength (wavefront_at w wf).
Proof.
  induction ls as [|l ls IH]; intros w wf Hstep Hall.
  - exists wf. cbn. repeat split.
  - destruct (Hall l (or_introl eq_refl)) as (p & Hp & Hlen).
    cbn [map MultiLayerAtmosphere.through]. unfold bind.
    rewrite Hstep, (phase_applied_ok factor l wf w Hp Hlen).
    set (w1 := with_wavefront (next_wavefront w) _ (fst (copy wf w))).
    assert (Hw1 : wavefront_at w1 (next_wavefront w)
                  = {| electric_field :=
                         zip_with Cmul (electric_field (wavefront_at w wf))
                           (map factor (values p));
                       wavelength := wavelength (wavefront_at w wf) |}).
    { unfold w1, with_wavefront. cbn [wavefront_at]. apply update_same. }
    assert (Hl1 : layer_at w1 = layer_at w) by reflexivity.
    assert (Ha1 : atmosphere w1 = atmosphere w) by reflexivity.
    destruct (IH w1 (next_wavefront w) Hstep) as (wf' & Hr & Hl & Ha & He & Hwl).
    { intros l' Hl'. destruct (Hall l' (or_intror Hl')) as (p' & Hp' & Hlen').
      exists p'. rewrite Hl1, Hw1. cbn [wavelength electric_field].
      split; [exact Hp'|]. rewrite length_zip_with; [exact Hlen'|].
      now rewrite length_map. }
    exists wf'. split; [exact Hr|]. split; [now rewrite Hl|].
    split; [now rewrite Ha|]. split.
    + rewrite He, Hw1. cbn [wavelength electric_field map fold_left].
      unfold screen_of at 3. rewrite Hp. reflexivity.
    + rewrite Hwl, Hw1. reflexivity.
Qed.

Lemma comprehension_Forall2 {A B} (f : A -> result B) xs : forall ys,
  comprehension f xs = Ok ys -> Forall2 (fun x y => f x = Ok y) xs ys.
Proof.
  induction xs as [|x xs IH]; intros ys H; simpl in H.
  - inversion H. constructor.
  - destruct (f x) as [y|e] eqn:E; simpl in H; [|discriminate].
    destruct (comprehension f xs) as [ys'|e]; simpl in H; [|discriminate].
    inversion H; subst. constructor; [exact E | now apply IH].
Qed.

Lemma screens_of_phases w wavelength0 ls phases :
  Forall2 (fun l p =>
             AtmosphericLayer.phase_for (class_of (layer_at w l))
               (state_of (layer_at w l)) wavelength0 = Ok p) ls phases ->
  map values phases = map (screen_of w wavelength0) ls.
Proof.
  induction 1 as [|l p ls phases Hp _ IH]; [reflexivity|].
  cbn [map]. rewrite IH. f_equal. unfold screen_of. now rewrite Hp.
Qed.

Lemma fold_zip_length n rest : forall r,
  length r = n -> Forall (fun row => length row = n) rest ->
  length (fold_left (zip_with Rplus) rest r) = n.
Proof.
  intros r Hr Hall. rewrite (@fold_zip_pointwise n rest r Hr Hall).
  now rewrite length_map, length_seq.
Qed.

(** What a normal return of [phase_for] says of the composite. *)
Lemma phase_for_ok_inv w wavelength0 total :
  snd (MultiLayerAtmosphere.phase_for wavelength0 w) = Ok total ->
  _scintillation (atmosphere w) = false /\
  _layers (atmosphere w) <> [] /\
  (forall l, In l (_layers (atmosphere w)) ->
     exists p,
       AtmosphericLayer.phase_for (class_of (layer_at w l)) (state_of (layer_at w l))
         wavelength0 = Ok p /\
       length (values p) = length (values total)) /\
  values total
  = pointwise_sum (length (values total))
      (map (screen_of w wavelength0) (_layers (atmosphere w))).
Proof.
  rewrite phase_for_eq. cbn [snd].
  destruct (_scintillation (atmosphere w)); [discriminate|].
  destruct (comprehension _ (_layers (atmosphere w))) as [phases|e] eqn:Ec;
    cbn [rbind]; [|discriminate].
  destruct (np_sum_axis0 (map values phases)) as [sum|e] eqn:Es;
    cbn [rbind]; [|discriminate].
  destruct (getlast phases) as [last_phase|e] eqn:El; cbn [rbind]; [|discriminate].
  intros H. injection H as <-. cbn [values].
  pose proof (@comprehension_Forall2 _ _ _ _ _ Ec) as HF.
  pose proof (@screens_of_phases _ _ _ _ HF) as Hscreens.
  assert (Hne : phases <> []) by (intros ->; discriminate).
  assert (Hrows : Forall (fun row => length row = length sum) (map values phases)).
  { unfold np_sum_axis0 in Es. destruct (map values phases) as [|r rest]; [constructor|].
    destruct (forallb _ rest) eqn:Eb; [|discriminate]. injection Es as <-.
    assert (Hrest : Forall (fun row => length row = length r) rest).
    { rewrite Forall_forall. intros x Hx.
      rewrite forallb_forall in Eb. apply Nat.eqb_eq. now apply Eb. }
    rewrite (@fold_zip_length (length r) rest r eq_refl Hrest).
    constructor; [reflexivity | exact Hrest]. }
  split; [reflexivity|]. split.
  { intros E. rewrite E in Ec. simpl in Ec. injection Ec as <-. congruence. }
  split.
  - intros l Hl. rewrite Hscreens in Hrows. rewrite Forall_forall in Hrows.
    specialize (Hrows (screen_of w wavelength0 l) (in_map _ _ _ Hl)).
    clear - HF Hl Hrows. induction HF as [|l' p ls ps Hp _ IH]; [contradiction|].
    destruct Hl as [->|Hl]; [|now apply IH].
    exists p. split; [exact Hp|]. unfold screen_of in Hrows. now rewrite Hp in Hrows.
  - rewrite <- Hscreens.
    assert (Hm : map values phases <> [])
      by (intros E; apply map_eq_nil in E; contradiction).
    pose proof (@np_sum_axis0_pointwise _ _ Hm Hrows) as Hs.
    rewrite Es in Hs. now injection Hs.
Qed.

Lemma phase_applied_ext f g l wf w :
  (forall p, f p = g p) -> phase_applied f l wf w = phase_applied g l wf w.
Proof.
  intros H. unfold phase_applied.
  destruct (AtmosphericLayer.phase_for _ _ _) as [phase|e]; [|reflexivity].
  now rewrite (map_ext _ _ H).
Qed.

Lemma fold_signed_rows (sign : R -> R) rows : forall E,
  fold_left (fun E row => zip_with Cmul E (map (fun p => expi (sign p)) row)) rows E
  = fold_left (fun E row => zip_with Cmul E (map expi row)) (map (map sign) rows) E.
Proof.
  induction rows as [|row rows IH]; intros E; [reflexivity|].
  cbn [map fold_left]. rewrite IH, map_map. reflexivity.
Qed.

(** Through layers only: the field comes out multiplied by the phase of the
    sum of the screens, each taken with the sign of the direction. *)
Lemma layers_traversed step (sign : R -> R) ls w wf :
  (forall l wf0 w0,
     step (LayerElement l) wf0 w0 = phase_applied (fun p => expi (sign p)) l wf0 w0) ->
  (forall l, In l ls ->
     exists p,
       AtmosphericLayer.phase_for (class_of (layer_at w l)) (state_of (layer_at w l))
         (wavelength (wavefront_at w wf)) = Ok p /\
       length (values p) = length (electric_field (wavefront_at w wf))) ->
  exists wf',
    snd (MultiLayerAtmosphere.through step (map LayerElement ls) wf w) = Ok wf' /\
    layer_at (fst (MultiLayerAtmosphere.through step (map LayerElement ls) wf w))
      = layer_at w /\
    atmosphere (fst (MultiLayerAtmosphere.through step (map LayerElement ls) wf w))
      = atmosphere w /\
    wavefront_at (fst (MultiLayerAtmosphere.through step (map LayerElement ls) wf w)) wf'
    = {| electric_field :=
           zip_with Cmul (electric_field (wavefront_at w wf))
             (map expi
                (pointwise_sum (length (electric_field (wavefront_at w wf)))
                   (map (fun l => map sign (screen_of w (wavelength (wavefront_at w wf)) l))
                      ls)));
         wavelength := wavelength (wavefront_at w wf) |}.
Proof.
  intros Hstep Hall.
  destruct (@traverse_layers step (fun p => expi (sign p)) ls w wf Hstep Hall)
    as (wf' & Hr & Hl & Ha & He & Hwl).
  exists wf'. split; [exact Hr|]. split; [exact Hl|]. split; [exact Ha|].
  rewrite fold_signed_rows, map_map in He.
  rewrite fold_expi_pointwise in He.
  - destruct (wavefront_at _ wf') as [E' wl']. cbn [electric_field wavelength] in *.
    now subst.
  - rewrite Forall_forall. intros row Hrow. apply in_map_iff in Hrow.
    destruct Hrow as (l & <- & Hl'). rewrite length_map.
    destruct (Hall l Hl') as (p & Hp & Hlen). unfold screen_of. now rewrite Hp.
Qed.

Lemma traversal_eq {A} (k : World -> loc -> M World A) wavefront w :
  _layers (atmosphere w) <> [] ->
  (w0 <- get ;;
   (if _dirty (atmosphere w0)
    then MultiLayerAtmosphere.calculate_propagators else ret tt) ;;
   wf <- copy wavefront ;;
   w1 <- get ;;
   k w1 wf) w
  = k (fst (copy wavefront (if _dirty (atmosphere w) then rebuilt w else w)))
      (next_wavefront w)
      (fst (copy wavefront (if _dirty (atmosphere w) then rebuilt w else w))).
Proof.
  intros Hne. unfold bind at 1. unfold get at 1. cbv iota beta.
  unfold bind at 1. destruct (_dirty (atmosphere w)).
  - rewrite calculate_propagators_run by exact Hne. reflexivity.
  - reflexivity.
Qed.

(** The store in which the elements are gone through. *)
Lemma prepared_store wavefront w :
  chain_current w ->
  let w2 := fst (copy wavefront (if _dirty (atmosphere w) then rebuilt w else w)) in
  elements (atmosphere w2) = rebuilt_elements w /\
  layer_at w2 = layer_at w /\
  wavefront_at w2 (next_wavefront w) = wavefront_at w wavefront /\
  _layers (atmosphere w2) = _layers (atmosphere w) /\
  _scintillation (atmosphere w2) = _scintillation (atmosphere w) /\
  next_wavefront w2 = S (next_wavefront w).
Proof.
  intros Hc. cbv zeta. destruct (_dirty (atmosphere w)) eqn:Ed.
  - cbn. rewrite update_same. repeat split.
  - destruct Hc as [Hc|Hc]; [congruence|].
    cbn. rewrite update_same. repeat split. exact Hc.
Qed.

Lemma rebuilt_elements_same w w' :
  _layers (atmosphere w') = _layers (atmosphere w) ->
  _scintillation (atmosphere w') = _scintillation (atmosphere w) ->
  layer_at w' = layer_at w ->
  rebuilt_elements w' = rebuilt_elements w.
Proof.
  intros Hl Hs Ha. unfold rebuilt_elements, sorted_indices, heights_of.
  now rewrite Hl, Hs, Ha.
Qed.

Lemma phase_for_same w w' wavelength0 :
  _layers (atmosphere w') = _layers (atmosphere w) ->
  _scintillation (atmosphere w') = _scintillation (atmosphere w) ->
  layer_at w' = layer_at w ->
  snd (MultiLayerAtmosphere.phase_for wavelength0 w')
  = snd (MultiLayerAtmosphere.phase_for wavelength0 w).
Proof.
  intros Hl Hs Ha. rewrite !phase_for_eq. cbn [snd]. now rewrite Hl, Hs, Ha.
Qed.

(** A traversal of a composite without scintillation, in either direction:
    [els] is the order in which the elements are taken, [sign] the sign of
    the phase. *)
Lemma composite_traversed step (sign : R -> R)
    (els : list Element -> list Element) (order : list loc -> list loc)
    wavefront w total :
  (forall l wf0 w0,
     step (LayerElement l) wf0 w0 = phase_applied (fun p => expi (sign p)) l wf0 w0) ->
  (forall n rows, pointwise_sum n (map (map sign) rows) = map sign (pointwise_sum n rows)) ->
  (forall ls, els (map LayerElement ls) = map LayerElement (order ls)) ->
  (forall ls, Permutation (order ls) ls) ->
  chain_current w ->
  snd (MultiLayerAtmosphere.phase_for (wavelength (wavefront_at w wavefront)) w) = Ok total ->
  length (values total) = length (electric_field (wavefront_at w wavefront)) ->
  let run :=
    (w0 <- get ;;
     (if _dirty (atmosphere w0)
      then MultiLayerAtmosphere.calculate_propagators else ret tt) ;;
     wf <- copy wavefront ;;
     w1 <- get ;;
     MultiLayerAtmosphere.through step (els (elements (atmosphere w1))) wf) w in
  exists wf',
    snd run = Ok wf' /\
    wavefront_at (fst run) wf'
    = {| electric_field :=
           zip_with Cmul (electric_field (wavefront_at w wavefront))
             (map expi (map sign (values total)));
         wavelength := wavelength (wavefront_at w wavefront) |} /\
    layer_at (fst run) = layer_at w /\
    _layers (atmosphere (fst run)) = _layers (atmosphere w) /\
    _scintillation (atmosphere (fst run)) = _scintillation (atmosphere w) /\
    elements (atmosphere (fst run)) = rebuilt_elements w.
Proof.
  intros Hstep Hsign Hels Hperm Hc Hphase Hlen run.
  destruct (@phase_for_ok_inv _ _ _ Hphase) as (Hsc & Hne & Hlayers & Htotal).
  destruct (@prepared_store wavefront w Hc) as (He & Hla & Hwf & Hls & Hscint & _).
  subst run.
  rewrite (@traversal_eq _
             (fun w1 wf => MultiLayerAtmosphere.through step (els (elements (atmosphere w1))) wf)
             wavefront w Hne).
  set (w2 := fst (copy wavefront (if _dirty (atmosphere w) then rebuilt w else w))) in *.
  assert (Hre : rebuilt_elements w
                = map LayerElement
                    (map (fun j => nth j (_layers (atmosphere w)) 0) (sorted_indices w))).
  { unfold rebuilt_elements. rewrite Hsc. now rewrite map_map. }
  cbv beta. rewrite He, Hre, Hels.
  set (ls := order (map (fun j => nth j (_layers (atmosphere w)) 0) (sorted_indices w))).
  assert (Hls_perm : Permutation ls (_layers (atmosphere w))).
  { unfold ls. rewrite Hperm. apply sorted_layers_perm. }
  destruct (@layers_traversed step sign ls w2 (next_wavefront w) Hstep)
    as (wf' & Hr & Hl & Ha & Hv).
  { intros l Hl. rewrite Hla, Hwf.
    destruct (Hlayers l (Permutation_in _ Hls_perm Hl)) as (p & Hp & Hpl).
    exists p. split; [exact Hp | congruence]. }
  exists wf'. split; [exact Hr|]. split.
  - rewrite Hv, Hwf. f_equal. f_equal. f_equal.
    rewrite <- (map_map (screen_of w2 (wavelength (wavefront_at w wavefront))) (map sign)).
    rewrite Hsign. f_equal. rewrite Htotal, Hlen.
    apply pointwise_sum_perm. unfold screen_of. rewrite Hla.
    now apply Permutation_map.
  - split; [now rewrite Hl|]. rewrite Ha. split; [exact Hls|]. split; [exact Hscint|].
    now rewrite He.
Qed.

Lemma element_forward_layer P l wf w :
  MultiLayerAtmosphere.element_forward P (LayerElement l) wf w
  = phase_applied (fun p => expi ((fun q => q) p)) l wf w.
Proof.
  cbn [MultiLayerAtmosphere.element_forward]. rewrite layer_forward_eq.
  apply phase_applied_ext. apply forward_factor.
Qed.

Lemma element_backward_layer P l wf w :
  MultiLayerAtmosphere.element_backward P (LayerElement l) wf w
  = phase_applied (fun p => expi (- p)) l wf w.
Proof.
  cbn [MultiLayerAtmosphere.element_backward]. rewrite layer_backward_eq.
  apply phase_applied_ext. apply backward_factor.
Qed.

Lemma pointwise_sum_id n rows :
  pointwise_sum n (map (map (fun q : R => q)) rows) = map (fun q => q) (pointwise_sum n rows).
Proof.
  rewrite map_id. f_equal. rewrite <- (map_id rows) at 2.
  apply map_ext. intros row. apply map_id.
Qed.

Lemma forward_run P wavefront w total :
  chain_current w ->
  snd (MultiLayerAtmosphere.phase_for (wavelength (wavefront_at w wavefront)) w) = Ok total ->
  length (values total) = length (electric_field (wavefront_at w wavefront)) ->
  exists wf',
    snd (MultiLayerAtmosphere.forward P wavefront w) = Ok wf' /\
    wavefront_at (fst (MultiLayerAtmosphere.forward P wavefront w)) wf'
    = {| electric_field :=
           zip_with Cmul (electric_field (wavefront_at w wavefront))
             (map expi (values total));
         wavelength := wavelength (wavefront_at w wavefront) |} /\
    layer_at (fst (MultiLayerAtmosphere.forward P wavefront w)) = layer_at w /\
    _layers (atmosphere (fst (MultiLayerAtmosphere.forward P wavefront w)))
      = _layers (atmosphere w) /\
    _scintillation (atmosphere (fst (MultiLayerAtmosphere.forward P wavefront w)))
      = _scintillation (atmosphere w) /\
    elements (atmosphere (fst (MultiLayerAtmosphere.forward P wavefront w)))
      = rebuilt_elements w.
Proof.
  intros Hc Hp Hlen.
  destruct (@composite_traversed (MultiLayerAtmosphere.element_forward P)
              (fun q => q) (fun e => e) (fun ls => ls) wavefront w total
              (element_forward_layer P) pointwise_sum_id
              (fun ls => eq_refl) (fun ls => Permutation_refl ls) Hc Hp Hlen)
    as (wf' & H1 & H2 & H3).
  exists wf'. rewrite map_id in H2. split; [exact H1|]. split; [exact H2 | exact H3].
Qed.

Lemma backward_run P wavefront w total :
  chain_current w ->
  snd (MultiLayerAtmosphere.phase_for (wavelength (wavefront_at w wavefront)) w) = Ok total ->
  length (values total) = length (electric_field (wavefront_at w wavefront)) ->
  exists wf',
    snd (MultiLayerAtmosphere.backward P wavefront w) = Ok wf' /\
    wavefront_at (fst (MultiLayerAtmosphere.backward P wavefront w)) wf'
    = {| electric_field :=
           zip_with Cmul (electric_field (wavefront_at w wavefront))
             (map (fun p => expi (- p)) (values total));
         wavelength := wavelength (wavefront_at w wavefront) |}.
Proof.
  intros Hc Hp Hlen.
  destruct (@composite_traversed (MultiLayerAtmosphere.element_backward P)
              Ropp (@rev Element) (@rev loc) wavefront w total
              (element_backward_layer P) pointwise_sum_opp
              (fun ls => eq_sym (map_rev LayerElement ls))
              (fun ls => Permutation_sym (Permutation_rev ls)) Hc Hp Hlen)
    as (wf' & H1 & H2 & _).
  exists wf'. rewrite map_map in H2. split; [exact H1 | exact H2].
Qed.

(** X3.  Without scintillation the composite is one phase screen: where
    [phase_for] at the wavelength of the wavefront returns a phase of the
    size of the field, and the chain is current or marked for rebuilding,
    [forward] returns a new wavefront with the field multiplied point by
    point by [exp(i phase)], and [backward] one with the field multiplied
    by [exp(-i phase)], whatever the propagator. *)
Theorem composite_applies_summed_phase (P : Propagation) (w : World)
    (wavefront : loc) (total : Field) :
  chain_current w ->
  snd (MultiLayerAtmosphere.phase_for (wavelength (wavefront_at w wavefront)) w) = Ok total ->
  length (values total) = length (electric_field (wavefront_at w wavefront)) ->
  (exists wf',
     snd (MultiLayerAtmosphere.forward P wavefront w) = Ok wf' /\
     wavefront_at (fst (MultiLayerAtmosphere.forward P wavefront w)) wf'
     = {| electric_field :=
            zip_with Cmul (electric_field (wavefront_at w wavefront))
              (map expi (values total));
          wavelength := wavelength (wavefront_at w wavefront) |}) /\
  (exists wf',
     snd (MultiLayerAtmosphere.backward P wavefront w) = Ok wf' /\
     wavefront_at (fst (MultiLayerAtmosphere.backward P wavefront w)) wf'
     = {| electric_field :=
            zip_with Cmul (electric_field (wavefront_at w wavefront))
              (map (fun p => expi (- p)) (values total));
          wavelength := wavelength (wavefront_at w wavefront) |}).
Proof.
  intros Hc Hp Hlen. split.
  - destruct (@forward_run P wavefront w total Hc Hp Hlen) as (wf' & H1 & H2 & _).
    exists wf'. now split.
  - now apply backward_run.
Qed.

Lemma composite_applies_summed_phase_witness :
  exists wf',
    snd (MultiLayerAtmosphere.forward copying_propagation 0
           (constructed [0; 5000]%Z false)) = Ok wf' /\
    wavefront_at (fst (MultiLayerAtmosphere.forward copying_propagation 0
                         (constructed [0; 5000]%Z false))) wf'
    = {| electric_field :=
           zip_with Cmul [(1, 0); (0, 1)]%R (map expi [1 + 1; 2 + 2]%R);
         wavelength := 1%R |}.
Proof.
  exact (proj1 (@composite_applies_summed_phase copying_propagation
                  (constructed [0; 5000]%Z false) 0
                  {| values := [1 + 1; 2 + 2]%R; grid := sample_grid |}
                  (or_intror eq_refl) eq_refl eq_refl)).
Defined.

(** X4.  Without scintillation [backward] undoes [forward]: under the
    conditions of X3 the wavefront that [backward] returns for the result
    of [forward] is equal to the wavefront first given. *)
Theorem composite_backward_after_forward (P : Propagation) (w : World)
    (wavefront : loc) (total : Field) :
  chain_current w ->
  snd (MultiLayerAtmosphere.phase_for (wavelength (wavefront_at w wavefront)) w) = Ok total ->
  length (values total) = length (electric_field (wavefront_at w wavefront)) ->
  exists wf1 wf2,
    snd (MultiLayerAtmosphere.forward P wavefront w) = Ok wf1 /\
    snd (MultiLayerAtmosphere.backward P wf1
           (fst (MultiLayerAtmosphere.forward P wavefront w))) = Ok wf2 /\
    wavefront_at
      (fst (MultiLayerAtmosphere.backward P wf1
              (fst (MultiLayerAtmosphere.forward P wavefront w)))) wf2
    = wavefront_at w wavefront.
Proof.
  intros Hc Hp Hlen.
  destruct (@forward_run P wavefront w total Hc Hp Hlen)
    as (wf1 & H1 & H2 & Hla & Hls & Hsc & Hel).
  set (w1 := fst (MultiLayerAtmosphere.forward P wavefront w)) in *.
  assert (Hc1 : chain_current w1).
  { right. rewrite Hel. symmetry. now apply rebuilt_elements_same. }
  assert (Hp1 : snd (MultiLayerAtmosphere.phase_for (wavelength (wavefront_at w1 wf1)) w1)
                = Ok total).
  { rewrite H2. cbn [wavelength]. rewrite <- Hp. now apply phase_for_same. }
  assert (Hlen1 : length (values total) = length (electric_field (wavefront_at w1 wf1))).
  { rewrite H2. cbn [electric_field].
    rewrite length_zip_with; [exact Hlen | now rewrite length_map]. }
  destruct (@backward_run P wf1 w1 total Hc1 Hp1 Hlen1) as (wf2 & K1 & K2).
  exists wf1, wf2. split; [exact H1|]. split; [exact K1|].
  rewrite K2, H2. cbn [electric_field wavelength].
  rewrite zip_cancel by exact Hlen.
  destruct (wavefront_at w wavefront); reflexivity.
Qed.

Lemma composite_backward_after_forward_witness :
  exists wf1 wf2,
    snd (MultiLayerAtmosphere.forward copying_propagation 0
           (constructed [0; 5000]%Z false)) = Ok wf1 /\
    snd (MultiLayerAtmosphere.backward copying_propagation wf1
           (fst (MultiLayerAtmosphere.forward copying_propagation 0
                   (constructed [0; 5000]%Z false)))) = Ok wf2 /\
    wavefront_at
      (fst (MultiLayerAtmosphere.backward copying_propagation wf1
              (fst (MultiLayerAtmosphere.forward copying_propagation 0
                      (constructed [0; 5000]%Z false))))) wf2
    = wavefront_at (constructed [0; 5000]%Z false) 0.
Proof.
  exact (@composite_backward_after_forward copying_propagation
           (constructed [0; 5000]%Z false) 0
           {| values := [1 + 1; 2 + 2]%R; grid := sample_grid |}
           (or_intror eq_refl) eq_refl eq_refl).
Defined.

(** ** More on the chain *)

Lemma chain_total grid0 sorted :
  sorted <> [] ->
  total_distance (chain grid0 sorted)
  = (hd 0 (map snd sorted)
     - (if 0 <? last (map snd sorted) 0 then 0 else last (map snd sorted) 0))%Z.
Proof.
  induction sorted as [|[l h] rest IH]; intros Hne; [congruence|].
  destruct rest as [|[l' h'] rest'].
  - simpl. destruct (0 <? h)%Z; simpl; lia.
  - change (chain grid0 ((l, h) :: (l', h') :: rest'))
      with (LayerElement l :: FresnelPropagator grid0 (h - h')
            :: chain grid0 ((l', h') :: rest')).
    change (last (map snd ((l, h) :: (l', h') :: rest')) 0%Z)
      with (last (map snd ((l', h') :: rest')) 0%Z).
    cbn [total_distance fold_right]. fold (total_distance (chain grid0 ((l', h') :: rest'))).
    rewrite IH by discriminate. cbn [map hd snd]. lia.
Qed.

Lemma sorted_first_last (hs : list Z) :
  StronglySorted Z.ge hs ->
  forall h, In h hs -> (last hs 0 <= h <= hd 0 hs)%Z.
Proof.
  induction 1 as [|a l Hs IH Hall]; intros h Hin; [contradiction|].
  rewrite Forall_forall in Hall. cbn [hd].
  destruct l as [|b l].
  - destruct Hin as [->|[]]. simpl. lia.
  - change (last (a :: b :: l) 0%Z) with (last (b :: l) 0%Z).
    destruct (IH b (or_introl eq_refl)) as [Hb _].
    destruct Hin as [->|Hin].
    + specialize (Hall b (or_introl eq_refl)). lia.
    + specialize (IH h Hin). specialize (Hall h Hin). lia.
Qed.

Lemma sorted_heights_perm w :
  Permutation (take (heights_of w) (sorted_indices w)) (heights_of w).
Proof.
  unfold take.
  apply Permutation_trans
    with (map (fun j => nth j (heights_of w) 0%Z) (seq 0 (length (heights_of w))));
    [|rewrite map_nth_seq; apply Permutation_refl].
  apply Permutation_map. unfold sorted_indices.
  rewrite <- (length_map Z.opp). apply argsort_perm.
Qed.

(** X5.  With scintillation the propagators of the chain add up to the
    drop from the highest layer to the ground, or to the lowest layer where
    that lies below the ground: the distances between the layers telescope.
    With no layer below the ground the sum is the height of the highest
    layer. *)
Theorem chain_total_distance (w : World) :
  _layers (atmosphere w) <> [] ->
  _scintillation (atmosphere w) = true ->
  let sorted_heights := take (heights_of w) (sorted_indices w) in
  let highest := hd 0%Z sorted_heights in
  let lowest := last sorted_heights 0%Z in
  let els := elements (atmosphere (fst (MultiLayerAtmosphere.calculate_propagators w))) in
  (forall h, In h (heights_of w) -> (lowest <= h <= highest)%Z) /\
  total_distance els = (highest - (if (0 <? lowest)%Z then 0 else lowest))%Z /\
  ((0 <= lowest)%Z -> total_distance els = highest).
Proof.
  intros Hne Hsc sorted_heights highest lowest els.
  assert (Hels : els = chain (input_grid (state_of (layer_at w (nth 0 (_layers (atmosphere w)) 0))))
                         (map (fun j => (nth j (_layers (atmosphere w)) 0,
                                         nth j (heights_of w) 0%Z)) (sorted_indices w))).
  { unfold els. rewrite calculate_propagators_run by exact Hne.
    cbn [fst]. unfold rebuilt, with_atmosphere. cbn [atmosphere elements].
    unfold rebuilt_elements. now rewrite Hsc. }
  assert (Hsnd : map snd (map (fun j => (nth j (_layers (atmosphere w)) 0,
                                         nth j (heights_of w) 0%Z)) (sorted_indices w))
                 = sorted_heights).
  { unfold sorted_heights, take. now rewrite map_map. }
  assert (Htot : total_distance els
                 = (highest - (if (0 <? lowest)%Z then 0 else lowest))%Z).
  { rewrite Hels, chain_total.
    - rewrite Hsnd. reflexivity.
    - intros E. apply map_eq_nil in E. apply Hne. apply length_zero_iff_nil.
      rewrite <- sorted_indices_length, E. reflexivity. }
  split; [|split].
  - intros h Hh. apply sorted_first_last.
    + apply sorted_heights_descending.
    + apply (Permutation_in _ (Permutation_sym (sorted_heights_perm w))). exact Hh.
  - exact Htot.
  - intros Hlow. rewrite Htot. destruct (Z.ltb_spec 0 lowest); lia.
Qed.

Lemma chain_total_distance_witness :
  total_distance
    (elements (atmosphere (fst (MultiLayerAtmosphere.calculate_propagators
                                  (constructed [100; 5000; 10000]%Z true)))))
  = 10000%Z.
Proof.
  refine (proj2 (proj2 (@chain_total_distance (constructed [100; 5000; 10000]%Z true)
                          _ eq_refl)) _).
  - discriminate.
  - simpl. lia.
Defined.

(** X6.  After [calculate_propagators] every layer of the list is among
    the elements exactly as often as it is in the list, and a second call
    changes nothing: it ends as the first call ended, in the same store. *)
Theorem chain_holds_every_layer (w : World) :
  let w' := fst (MultiLayerAtmosphere.calculate_propagators w) in
  (_layers (atmosphere w) <> [] ->
   Permutation (layers_in (elements (atmosphere w'))) (_layers (atmosphere w))) /\
  MultiLayerAtmosphere.calculate_propagators w'
  = MultiLayerAtmosphere.calculate_propagators w.
Proof.
  cbv zeta. split.
  - intros Hne. rewrite calculate_propagators_run by exact Hne. cbn [fst].
    unfold rebuilt, with_atmosphere. cbn [atmosphere elements].
    rewrite rebuilt_layers. apply sorted_layers_perm.
  - destruct (_layers (atmosphere w)) eqn:E.
    + rewrite (calculate_propagators_empty w E). cbn [fst].
      apply calculate_propagators_empty. exact E.
    + assert (Hne : _layers (atmosphere w) <> []) by congruence.
      rewrite (calculate_propagators_run w Hne). cbn [fst].
      rewrite calculate_propagators_run by exact Hne.
      reflexivity.
Qed.

Lemma chain_holds_every_layer_witness :
  Permutation
    (layers_in (elements (atmosphere
       (fst (MultiLayerAtmosphere.calculate_propagators
               (constructed [100; 5000; 10000]%Z true))))))
    (_layers (atmosphere (constructed [100; 5000; 10000]%Z true))).
Proof.
  exact (proj1 (chain_holds_every_layer (constructed [100; 5000; 10000]%Z true))
           ltac:(discriminate)).
Defined.

(** ** Loops over the layers *)

Lemma only_layers_touched_refl ls w : only_layers_touched ls w w.
Proof. repeat split. Qed.

Lemma only_layers_touched_step l ls w w1 w2 :
  only_layers_touched [l] w w1 ->
  only_layers_touched ls w1 w2 ->
  only_layers_touched (l :: ls) w w2.
Proof.
  intros (A1 & B1 & C1 & D1 & E1 & F1) (A2 & B2 & C2 & D2 & E2 & F2).
  split; [congruence|]. split; [congruence|]. split; [congruence|].
  split; [congruence|]. split.
  - intros l' Hl'. rewrite E2, E1; [reflexivity| |].
    + intros [->|[]]. apply Hl'. now left.
    + intros Hin. apply Hl'. now right.
  - intros l'. now rewrite F2, F1.
Qed.

Lemma with_layer_touched l s w : only_layers_touched [l] w (with_layer l s w).
Proof.
  unfold with_layer, only_layers_touched. cbn [layer_at atmosphere wavefront_at
    next_wavefront warnings].
  split; [reflexivity|]. split; [reflexivity|]. split; [reflexivity|].
  split; [reflexivity|]. split.
  - intros l' Hl'. apply update_other. intros ->. apply Hl'. now left.
  - intros l'. unfold update. destruct (Nat.eqb_spec l' l); [subst|]; reflexivity.
Qed.

Lemma for_each_touched ls (body : loc -> M World unit) : forall w,
  (forall l w0, In l ls -> only_layers_touched [l] w0 (fst (body l w0))) ->
  only_layers_touched ls w (fst (for_each ls body w)).
Proof.
  induction ls as [|l ls IH]; intros w Hbody.
  - apply only_layers_touched_refl.
  - cbn [for_each]. unfold bind.
    pose proof (Hbody l w (or_introl eq_refl)) as H1.
    destruct (body l w) as [w1 [[]|e]]; cbn [fst] in *.
    + apply (only_layers_touched_step H1). apply IH.
      intros l' w0 Hl'. apply Hbody. now right.
    + apply (only_layers_touched_step H1). apply only_layers_touched_refl.
Qed.

(** The body of the loops of [reset], [evolve_until] and the setter of the
    outer scale: a new state for one layer, or an exception. *)
Lemma layer_update_touched l (g : World -> result LayerState) w :
  only_layers_touched [l] w
    (fst ((w0 <- get ;; s <- lift (g w0) ;; modify (with_layer l s)) w)).
Proof.
  unfold bind, get, lift, modify. destruct (g w) as [s|e]; cbn [fst].
  - apply with_layer_touched.
  - apply only_layers_touched_refl.
Qed.

Lemma Cn_squared_body_touched (old X : R) l w :
  only_layers_touched [l] w
    (fst ((w0 <- get ;;
           c <- lift (MultiLayerAtmosphere.layer_Cn_squared w0 l) ;;
           q <- lift (divide c old) ;;
           s <- lift (AtmosphericLayer.set_Cn_squared (class_of (layer_at w0 l))
                        (state_of (layer_at w0 l)) (PyFloat (q * X))) ;;
           modify (with_layer l s)) w)).
Proof.
  unfold bind, get, lift, modify.
  destruct (MultiLayerAtmosphere.layer_Cn_squared w l) as [c|e]; cbn [fst];
    [|apply only_layers_touched_refl].
  destruct (divide c old) as [q|e]; cbn [fst]; [|apply only_layers_touched_refl].
  destruct (AtmosphericLayer.set_Cn_squared _ _ _) as [s|e]; cbn [fst].
  - apply with_layer_touched.
  - apply only_layers_touched_refl.
Qed.

(** X7.  However they end, the setter of the aggregate [Cn_squared], the
    setter of the outer scale and [reset] change nothing but the states of
    the layers of the list: the flag, the elements and the time of the
    composite, every wavefront and every other layer are as before. *)
Theorem aggregate_operations_touch_layers_only (dynamics : loc -> LayerDynamics)
    (w : World) (X : R) (L0 : pyfloat) :
  let layers := _layers (atmosphere w) in
  only_layers_touched layers w (fst (MultiLayerAtmosphere.set_Cn_squared X w)) /\
  only_layers_touched layers w (fst (MultiLayerAtmosphere.set_outer_scale L0 w)) /\
  only_layers_touched layers w (fst (MultiLayerAtmosphere.reset dynamics w)).
Proof.
  cbv zeta. split; [|split].
  - unfold MultiLayerAtmosphere.set_Cn_squared. unfold bind at 1.
    rewrite get_Cn_squared_eq.
    destruct (comprehension _ _) as [cs|e]; cbn [rbind fst];
      [|apply only_layers_touched_refl].
    unfold bind at 1. unfold get at 1. cbv iota beta.
    apply for_each_touched. intros l w0 _. apply Cn_squared_body_touched.
  - unfold MultiLayerAtmosphere.set_outer_scale. unfold bind at 1. unfold get at 1.
    cbv iota beta. apply for_each_touched. intros l w0 _.
    apply (layer_update_touched l
             (fun w1 => AtmosphericLayer.set_outer_scale (class_of (layer_at w1 l))
                          (state_of (layer_at w1 l)) L0)).
  - unfold MultiLayerAtmosphere.reset. unfold bind at 1. unfold get at 1.
    cbv iota beta. apply for_each_touched. intros l w0 _.
    apply (layer_update_touched l
             (fun w1 => AtmosphericLayer.reset (dynamics l) (state_of (layer_at w1 l)))).
Qed.

(** ** Time *)

Lemma for_each_ok ls (body : loc -> M World unit) : forall w,
  (forall l w0, In l ls -> snd (body l w0) = Ok tt) ->
  snd (for_each ls body w) = Ok tt.
Proof.
  induction ls as [|l ls IH]; intros w Hbody; [reflexivity|].
  cbn [for_each]. unfold bind.
  pose proof (Hbody l w (or_introl eq_refl)) as H1.
  destruct (body l w) as [w1 [[]|e]]; cbn [snd] in *; [|discriminate].
  apply IH. intros l' w0 Hl'. apply Hbody. now right.
Qed.

Lemma evolve_until_eq dynamics t w :
  MultiLayerAtmosphere.evolve_until dynamics t w
  = match for_each (_layers (atmosphere w))
            (fun l =>
               w0 <- get ;;
               s <- lift (AtmosphericLayer.evolve_until (dynamics l)
                            (state_of (layer_at w0 l)) t) ;;
               modify (with_layer l s)) w with
    | (w1, Ok _) =>
        (with_atmosphere (fun self =>
           {| _layers := _layers self;
              _scintillation := _scintillation self;
              _t := t;
              _dirty := _dirty self;
              elements := elements self |}) w1, Ok tt)
    | (w1, Raise e) => (w1, Raise e)
    end.
Proof.
  unfold MultiLayerAtmosphere.evolve_until, MultiLayerAtmosphere.get_layers.
  unfold bind at 1. unfold get at 1. cbv iota beta. unfold bind at 1.
  destruct (for_each _ _ w) as [w1 [[]|e]]; reflexivity.
Qed.

(** X8.  [evolve_until], which is also what writing [t] does, changes the
    states of the layers of the list and nothing else, but for the time of
    the composite: where it returns, that time is [t] and the flag and the
    elements are as before; where a layer raises, the time is as before.
    It returns where every layer's [evolve_until] does, in particular on
    an empty list; a first layer without the method stops it with
    [NotImplementedError] before anything has changed. *)
Theorem evolve_until_records_time (dynamics : loc -> LayerDynamics)
    (w : World) (t : R) :
  let run := MultiLayerAtmosphere.evolve_until dynamics t w in
  let layers := _layers (atmosphere w) in
  MultiLayerAtmosphere.set_t dynamics t w = run /\
  (snd run = Ok tt ->
   atmosphere (fst run)
   = {| _layers := layers;
        _scintillation := _scintillation (atmosphere w);
        _t := t;
        _dirty := _dirty (atmosphere w);
        elements := elements (atmosphere w) |} /\
   wavefront_at (fst run) = wavefront_at w /\
   (forall l, ~ In l layers -> layer_at (fst run) l = layer_at w l)) /\
  (forall e, snd run = Raise e -> only_layers_touched layers w (fst run)) /\
  ((forall l s, In l layers ->
      exists s', AtmosphericLayer.evolve_until (dynamics l) s t = Ok s') ->
   snd run = Ok tt) /\
  (forall l0 rest, layers = l0 :: rest ->
     evolve_until_method (dynamics l0) = None ->
     run = (w, Raise NotImplementedError)).
Proof.
  cbv zeta. split; [reflexivity|].
  rewrite evolve_until_eq.
  set (body := fun l : loc =>
     w0 <- get ;;
     s <- lift (AtmosphericLayer.evolve_until (dynamics l) (state_of (layer_at w0 l)) t) ;;
     modify (with_layer l s)).
  assert (Ht : only_layers_touched (_layers (atmosphere w)) w
                 (fst (for_each (_layers (atmosphere w)) body w))).
  { apply for_each_touched. intros l w0 _.
    apply (layer_update_touched l
             (fun w1 => AtmosphericLayer.evolve_until (dynamics l)
                          (state_of (layer_at w1 l)) t)). }
  split; [|split; [|split]].
  - destruct (for_each _ body w) as [w1 [[]|e]]; cbn [fst snd] in *; [|discriminate].
    intros _. destruct Ht as (A & B & _ & _ & E & _).
    unfold with_atmosphere. cbn [atmosphere wavefront_at layer_at].
    rewrite A. split; [reflexivity|]. split; [exact B | exact E].
  - intros e.
    destruct (for_each _ body w) as [w1 [[]|e']]; cbn [fst snd] in *; [discriminate|].
    intros _. exact Ht.
  - intros Hall.
    assert (Hok : snd (for_each (_layers (atmosphere w)) body w) = Ok tt).
    { apply for_each_ok. intros l w0 Hl. unfold body, bind, get, lift, modify.
      destruct (Hall l (state_of (layer_at w0 l)) Hl) as (s' & Hs'). now rewrite Hs'. }
    destruct (for_each _ body w) as [w1 [[]|e]]; cbn [snd] in *;
      [reflexivity | discriminate].
  - intros l0 rest Hl Hnone. rewrite Hl. cbn [for_each]. unfold bind at 1.
    unfold body at 1. unfold bind, get, lift, AtmosphericLayer.evolve_until.
    rewrite Hnone. reflexivity.
Qed.

Lemma evolve_until_records_time_witness :
  MultiLayerAtmosphere.get_t
    (fst (MultiLayerAtmosphere.evolve_until (fun _ => clock_dynamics) 3
            (constructed [0; 5000]%Z false)))
  = 3%R.
Proof.
  exact (f_equal _t
           (proj1 (proj1 (proj2 (@evolve_until_records_time (fun _ => clock_dynamics)
                                   (constructed [0; 5000]%Z false) 3%R))
                     eq_refl))).
Defined.

(** ** The outer scale of the composite *)

Lemma broadcast_loop (L0 : pyfloat) ls : forall w,
  (forall l, In l ls -> stores_outer_scale (class_of (layer_at w l))) ->
  exists w',
    for_each ls (fun l =>
      w0 <- get ;;
      s <- lift (AtmosphericLayer.set_outer_scale (class_of (layer_at w0 l))
                   (state_of (layer_at w0 l)) L0) ;;
      modify (with_layer l s)) w = (w', Ok tt) /\
    (forall l, In l ls -> _outer_scale (state_of (layer_at w' l)) = Some L0) /\
    only_layers_touched ls w w'.
Proof.
  induction ls as [|l ls IH]; intros w Hst.
  - exists w. split; [reflexivity|]. split; [intros l []|].
    apply only_layers_touched_refl.
  - destruct (Hst l (or_introl eq_refl) (state_of (layer_at w l)) L0) as (s & Hs & Hv).
    assert (H1 : only_layers_touched [l] w (with_layer l s w))
      by apply with_layer_touched.
    destruct (IH (with_layer l s w)) as (w' & Hrun & Hall & Ht).
    { intros l' Hl'. destruct H1 as (_ & _ & _ & _ & _ & F). rewrite F.
      apply Hst. now right. }
    exists w'. split; [|split].
    + cbn [for_each]. unfold bind at 1. unfold bind at 1. unfold get at 1.
      cbv iota beta. unfold bind at 1. unfold lift at 1. rewrite Hs.
      unfold modify at 1. exact Hrun.
    + intros l' Hl'. destruct (in_dec Nat.eq_dec l' ls) as [Hin|Hout];
        [now apply Hall|].
      destruct Hl' as [<-|Hl']; [|contradiction].
      destruct Ht as (_ & _ & _ & _ & E & _). rewrite (E l Hout).
      unfold with_layer. cbn [layer_at]. rewrite update_same. exact Hv.
    + apply (only_layers_touched_step H1 Ht).
Qed.

(** X9.  The outer scale of the composite is that of its first layer:
    reading it on an empty list raises [IndexError].  Writing it hands the
    value to the setter of every layer: for layers of classes whose setter
    stores, the write returns, every layer of the list then reads the
    value, under both names, and so does the composite. *)
Theorem outer_scale_written_then_read (w : World) (L0 : pyfloat) :
  let layers := _layers (atmosphere w) in
  let w' := fst (MultiLayerAtmosphere.set_outer_scale L0 w) in
  (layers = [] ->
   MultiLayerAtmosphere.get_outer_scale w = (w, Raise IndexError)) /\
  (layers <> [] ->
   (forall l, In l layers -> stores_outer_scale (class_of (layer_at w l))) ->
   snd (MultiLayerAtmosphere.set_outer_scale L0 w) = Ok tt /\
   (forall l, In l layers ->
      AtmosphericLayer.get_outer_scale (state_of (layer_at w' l)) = Ok L0 /\
      AtmosphericLayer.get_L0 (state_of (layer_at w' l)) = Ok L0) /\
   MultiLayerAtmosphere.get_outer_scale w' = (w', Ok L0)).
Proof.
  cbv zeta. split.
  - intros E. unfold MultiLayerAtmosphere.get_outer_scale,
      MultiLayerAtmosphere.get_layers, bind, get, lift. rewrite E. reflexivity.
  - intros Hne Hst.
    destruct (@broadcast_loop L0 (_layers (atmosphere w)) w Hst)
      as (w' & Hrun & Hall & Ht).
    assert (Hset : MultiLayerAtmosphere.set_outer_scale L0 w = (w', Ok tt)).
    { unfold MultiLayerAtmosphere.set_outer_scale, MultiLayerAtmosphere.get_layers.
      unfold bind at 1. unfold get at 1. cbv iota beta. exact Hrun. }
    rewrite Hset. cbn [fst snd]. split; [reflexivity|].
    assert (Hread : forall l, In l (_layers (atmosphere w)) ->
              AtmosphericLayer.get_outer_scale (state_of (layer_at w' l)) = Ok L0).
    { intros l Hl. unfold AtmosphericLayer.get_outer_scale. now rewrite (Hall l Hl). }
    split.
    + intros l Hl. split; [now apply Hread|].
      unfold AtmosphericLayer.get_L0. now apply Hread.
    + destruct Ht as (A & _).
      unfold MultiLayerAtmosphere.get_outer_scale, MultiLayerAtmosphere.get_layers,
        bind, get, lift. rewrite A.
      destruct (_layers (atmosphere w)) as [|l0 rest] eqn:E; [congruence|].
      cbn [getitem nth_error]. rewrite (Hread l0 (or_introl eq_refl)). reflexivity.
Qed.

Lemma FixedScreen_stores_outer_scale screen : stores_outer_scale (FixedScreen screen).
Proof. intros self v. eexists. split; reflexivity. Qed.

Lemma outer_scale_written_then_read_witness :
  MultiLayerAtmosphere.get_outer_scale
    (fst (MultiLayerAtmosphere.set_outer_scale (PyFloat 20)
            (constructed [0; 5000]%Z false)))
  = (fst (MultiLayerAtmosphere.set_outer_scale (PyFloat 20)
            (constructed [0; 5000]%Z false)), Ok (PyFloat 20)).
Proof.
  refine (proj2 (proj2 (proj2 (@outer_scale_written_then_read
                                 (constructed [0; 5000]%Z false) (PyFloat 20)) _ _))).
  - discriminate.
  - intros l _. apply FixedScreen_stores_outer_scale.
Defined.

(** ** The empty composite and layers without a phase *)

(** X10.  A composite cannot be built from an empty list of layers:
    [__init__] raises [IndexError], with or without the legacy flag.  Once
    the list of a composite has been replaced by the empty list, so that the
    flag is set, [forward] and [backward] raise [IndexError] before any
    copy is made, and the flag stays set.  On an empty list [phase_for]
    without scintillation raises [IndexError] too, while the aggregate
    [Cn_squared] reads 0 and writing it does nothing. *)
Theorem empty_list_of_layers (P : Propagation) (w : World) (wavefront : loc)
    (scintillation : bool) (scintilation : option bool) (wavelength0 X : R) :
  snd (MultiLayerAtmosphere.__init__ [] scintillation scintilation w) = Raise IndexError /\
  (_layers (atmosphere w) = [] ->
   (_dirty (atmosphere w) = true ->
    MultiLayerAtmosphere.forward P wavefront w = (w, Raise IndexError) /\
    MultiLayerAtmosphere.backward P wavefront w = (w, Raise IndexError)) /\
   (_scintillation (atmosphere w) = false ->
    MultiLayerAtmosphere.phase_for wavelength0 w = (w, Raise IndexError)) /\
   MultiLayerAtmosphere.get_Cn_squared w = (w, Ok 0%R) /\
   MultiLayerAtmosphere.set_Cn_squared X w = (w, Ok tt)).
Proof.
  split.
  - destruct scintilation as [legacy|].
    + rewrite init_legacy_spelling. now rewrite calculate_propagators_empty.
    + rewrite init_correct_spelling. now rewrite calculate_propagators_empty.
  - intros E. split; [|split; [|split]].
    + intros Hd. unfold MultiLayerAtmosphere.forward, MultiLayerAtmosphere.backward.
      unfold bind at 1 5. unfold get at 1 3. cbv iota beta. rewrite Hd.
      unfold bind at 1 4. rewrite (calculate_propagators_empty w E). split; reflexivity.
    + intros Hsc. rewrite phase_for_eq, Hsc, E. reflexivity.
    + rewrite get_Cn_squared_eq, E. reflexivity.
    + unfold MultiLayerAtmosphere.set_Cn_squared. unfold bind at 1.
      rewrite get_Cn_squared_eq, E. cbn [comprehension rbind fold_left].
      unfold bind, get, MultiLayerAtmosphere.get_layers. rewrite E. reflexivity.
Qed.

Lemma empty_list_of_layers_witness :
  MultiLayerAtmosphere.forward copying_propagation 0
    (fst (MultiLayerAtmosphere.set_layers [] (constructed [0; 5000]%Z false)))
  = (fst (MultiLayerAtmosphere.set_layers [] (constructed [0; 5000]%Z false)),
     Raise IndexError).
Proof.
  exact (proj1 (proj1 (proj2 (@empty_list_of_layers copying_propagation
                                (fst (MultiLayerAtmosphere.set_layers []
                                        (constructed [0; 5000]%Z false)))
                                0 false None 1 1) eq_refl) eq_refl)).
Defined.

Lemma comprehension_first_raise {A B} (f : A -> result B) xs e :
  (exists x, In x xs /\ f x = Raise e) ->
  (forall x e', f x = Raise e' -> e' = e) ->
  comprehension f xs = Raise e.
Proof.
  intros (x & Hin & Hx) Hall. induction xs as [|y xs IH]; [contradiction|].
  cbn [comprehension]. destruct (f y) as [b|e'] eqn:Ey; cbn [rbind].
  - destruct Hin as [->|Hin]; [congruence|]. now rewrite (IH Hin).
  - now rewrite (Hall y e' Ey).
Qed.

(** X11.  Without scintillation [phase_for] of the composite asks every
    layer in turn: where a layer of the list is of a class without
    [phase_for], the call raises [NotImplementedError] and leaves the store
    as it was. *)
Theorem phase_for_needs_every_layer (w : World) (wavelength0 : R) (l : loc) :
  _scintillation (atmosphere w) = false ->
  In l (_layers (atmosphere w)) ->
  phase_for_method (class_of (layer_at w l)) = None ->
  MultiLayerAtmosphere.phase_for wavelength0 w = (w, Raise NotImplementedError).
Proof.
  intros Hsc Hl Hnone. rewrite phase_for_eq, Hsc.
  rewrite (@comprehension_first_raise _ _ _ _ NotImplementedError); [reflexivity| |].
  - exists l. split; [exact Hl|]. unfold AtmosphericLayer.phase_for. now rewrite Hnone.
  - intros x e'. unfold AtmosphericLayer.phase_for.
    destruct (phase_for_method (class_of (layer_at w x))); [discriminate|].
    intros H. now injection H.
Qed.

Lemma phase_for_needs_every_layer_witness :
  MultiLayerAtmosphere.phase_for 1 abstract_world
  = (abstract_world, Raise NotImplementedError).
Proof.
  refine (@phase_for_needs_every_layer abstract_world 1 0 eq_refl _ eq_refl).
  simpl. auto.
Defined.

(** ** What the constructor of a layer settles *)

(** X12.  Whatever the setters of its class do, a layer whose [__init__]
    has returned has the height it was given, is at time 0, and has as
    velocity the array given, or for a scalar [v] the pair [[v, 0]]. *)
Theorem layer_init_settles (K : LayerClass) (self self' : LayerState)
    (grid0 : Grid) (Cn_squared L0 : pyfloat) (velocity : velocity_arg) (height0 : Z) :
  AtmosphericLayer.__init__ K self grid0 Cn_squared L0 velocity height0 = Ok self' ->
  height self' = height0 /\
  AtmosphericLayer.get_t self' = 0%R /\
  AtmosphericLayer.get_velocity self'
  = Some (match velocity with
          | Scalar v => [v; 0%R]
          | ArrayLike v => v
          end).
Proof.
  unfold AtmosphericLayer.__init__.
  destruct (AtmosphericLayer.set_Cn_squared K _ Cn_squared) as [s1|e];
    cbn [rbind]; [|discriminate].
  destruct (AtmosphericLayer.set_L0 K s1 L0) as [s2|e]; cbn [rbind]; [|discriminate].
  intros H. injection H as <-.
  unfold AtmosphericLayer.get_t, AtmosphericLayer.get_velocity,
    AtmosphericLayer.set_velocity. cbn [height layer_t _velocity].
  destruct velocity; repeat split.
Qed.

Lemma layer_init_settles_witness :
  height (state_of (sample_layer [1; 2]%R 1 5000)) = 5000%Z.
Proof.
  exact (proj1 (@layer_init_settles (FixedScreen [1; 2]%R) new_layer _ sample_grid
                  (PyFloat 1) PyInf (Scalar 0) 5000%Z eq_refl)).
Defined.

(** ** Von Karman statistics *)

Lemma zip_with_two_maps {A B C0 D} (f : B -> C0 -> D) (a : A -> B) (b : A -> C0) l :
  zip_with f (map a l) (map b l) = map (fun x => f (a x) (b x)) l.
Proof. induction l as [|x l IH]; simpl; [reflexivity | now rewrite IH]. Qed.

Lemma two_sixths_five_sixths : (Rpower 2 (1 / 6) * Rpower 2 (5 / 6) = 2)%R.
Proof.
  rewrite <- Rpower_plus. replace (1 / 6 + 5 / 6)%R with 1%R by field.
  apply Rpower_1. lra.
Qed.

(** X13.  The two generators agree with each other: at every point of the
    grid the structure function [D] and the covariance [B] satisfy
    [D = 2 (B0 - B)] with the constant
    [B0 = (L0/r0)^(5/3) (24/5 Gamma(6/5))^(5/6) Gamma(11/6) Gamma(5/6) / (2 pi^(8/3))],
    whatever functions stand for the gamma and the Bessel function; both
    fields have one value for each point of the grid. *)
Theorem structure_function_from_covariance (gamma : R -> R) (kv : R -> R -> R)
    (r0 L0 : R) (g : Grid) (k : nat) :
  (0 < r0)%R -> (0 < L0)%R -> k < length (polar_r g) ->
  let B := nth k (values (phase_covariance_von_karman gamma kv r0 L0 g)) 0%R in
  let D := nth k (values (phase_structure_function_von_karman gamma kv r0 L0 g)) 0%R in
  let B0 := (Rpower (L0 / r0) (5 / 3) * Rpower (24 / 5 * gamma (6 / 5)) (5 / 6)
             * gamma (11 / 6) * gamma (5 / 6) / (2 * Rpower PI (8 / 3)))%R in
  D = (2 * (B0 - B))%R /\
  length (values (phase_covariance_von_karman gamma kv r0 L0 g)) = length (polar_r g) /\
  length (values (phase_structure_function_von_karman gamma kv r0 L0 g))
  = length (polar_r g).
Proof.
  intros _ _ Hk. cbv zeta.
  unfold phase_covariance_von_karman, phase_structure_function_von_karman.
  cbn [values]. rewrite !zip_with_two_maps, !map_map, !length_map.
  rewrite !(nth_map_in_range _ _ 0%R Hk).
  split; [|split; reflexivity].
  pose proof two_sixths_five_sixths as H2.
  pose proof (Rpower_pos 2 (1 / 6)) as Hp1.
  pose proof (Rpower_pos 2 (5 / 6)) as Hp5.
  pose proof (Rpower_pos PI (8 / 3)) as Hpi.
  set (p1 := Rpower 2 (1 / 6)) in *. set (p5 := Rpower 2 (5 / 6)) in *.
  assert (Hrep : p5 = (2 / p1)%R) by (rewrite <- H2; field; lra).
  rewrite Hrep. field. split; lra.
Qed.

Lemma structure_function_from_covariance_witness :
  length (values (phase_structure_function_von_karman (fun _ => 1%R) (fun _ _ => 1%R)
                    1 1 sample_grid))
  = length (polar_r sample_grid).
Proof.
  refine (proj2 (proj2 (@structure_function_from_covariance (fun _ => 1%R)
                          (fun _ _ => 1%R) 1 1 sample_grid 0 _ _ _))).
  - lra.
  - lra.
  - simpl. lia.
Defined.

Lemma power_spectral_density_formula (r0 L0 : R) (g : Grid) (k : nat) :
  (0 < L0)%R -> k < length (polar_r g) ->
  let u := (nth k (polar_r g) 0 + 1e-10)%R in
  let value := nth k (values (power_spectral_density_von_karman r0 L0 g)) 0%R in
  ((u < 1e-9)%R -> value = 0%R) /\
  ((1e-9 <= u)%R ->
   value = (0.0229 * Rpower ((u ^ 2 + (2 * PI / L0) ^ 2) / (2 * PI) ^ 2) (-11 / 6)
            * Rpower r0 (-5 / 3))%R).
Proof.
  intros _ Hk. cbv zeta.
  unfold power_spectral_density_von_karman. cbn [values].
  rewrite (zip_with_maps (fun u x => if Rlt_dec u 1e-9 then 0%R else x)
             (fun r => (r + 1e-10)%R)).
  rewrite (nth_map_in_range _ _ 0%R Hk).
  destruct (Rlt_dec _ _) as [Hlt|Hge]; split; intros H; try reflexivity; lra.
Qed.

Lemma Rpower_negative_antitone x y z :
  (0 < x)%R -> (x <= y)%R -> (z < 0)%R -> (Rpower y z <= Rpower x z)%R.
Proof.
  intros Hx Hxy Hz. unfold Rpower.
  destruct (Rle_lt_or_eq_dec x y Hxy) as [Hlt | ->]; [|lra].
  left. apply exp_increasing.
  pose proof (ln_increasing x y Hx Hlt). nra.
Qed.

(** X14.  The power spectral density is never negative and never above
    its value at the outer scale, [0.0229 (1/L0^2)^(-11/6) r0^(-5/3)]; and
    of two grid points beyond the cut, the one further out has no more
    power than the other. *)
Theorem power_spectral_density_bounds (r0 L0 : R) (g : Grid) (k1 k2 : nat) :
  (0 < r0)%R -> (0 < L0)%R ->
  k1 < length (polar_r g) -> k2 < length (polar_r g) ->
  let psd := values (power_spectral_density_von_karman r0 L0 g) in
  let r1 := nth k1 (polar_r g) 0%R in
  let r2 := nth k2 (polar_r g) 0%R in
  (0 <= nth k1 psd 0 <= 0.0229 * Rpower (1 / L0 ^ 2) (-11 / 6) * Rpower r0 (-5 / 3))%R /\
  ((9e-10 <= r1)%R -> (r1 <= r2)%R -> (nth k2 psd 0 <= nth k1 psd 0)%R).
Proof.
  intros Hr0 HL0 Hk1 Hk2 psd r1 r2.
  destruct (@power_spectral_density_formula r0 L0 g k1 HL0 Hk1) as [Hz1 Hf1].
  destruct (@power_spectral_density_formula r0 L0 g k2 HL0 Hk2) as [Hz2 Hf2].
  fold psd r1 in Hz1, Hf1. fold psd r2 in Hz2, Hf2.
  pose proof PI_RGT_0 as Hpi.
  assert (Hu0 : (0 < 2 * PI / L0)%R) by (apply Rdiv_lt_0_compat; lra).
  assert (Hu02 : (0 < (2 * PI / L0) ^ 2)%R) by (apply pow_lt; exact Hu0).
  assert (Hden : (0 < (2 * PI) ^ 2)%R) by (apply pow_lt; lra).
  assert (Hbase : forall u, (0 < (u ^ 2 + (2 * PI / L0) ^ 2) / (2 * PI) ^ 2)%R).
  { intros u. apply Rdiv_lt_0_compat; [|exact Hden].
    pose proof (pow2_ge_0 u). lra. }
  assert (Hsat : (1 / L0 ^ 2 = ((2 * PI / L0) ^ 2) / (2 * PI) ^ 2)%R)
    by (field; lra).
  assert (Hc : (0 < Rpower r0 (-5 / 3))%R) by apply Rpower_pos.
  split.
  - destruct (Rlt_dec (r1 + 1e-10) 1e-9) as [Hlt|Hge].
    + rewrite (Hz1 Hlt). split; [lra|].
      apply Rmult_le_pos; [apply Rmult_le_pos; [lra|]|]; left; apply Rpower_pos.
    + rewrite (Hf1 (Rnot_lt_le _ _ Hge)). split.
      * apply Rmult_le_pos; [apply Rmult_le_pos; [lra|]|]; left; apply Rpower_pos.
      * apply Rmult_le_compat_r; [lra|]. apply Rmult_le_compat_l; [lra|].
        rewrite Hsat. apply Rpower_negative_antitone; [| |lra].
        -- apply Rdiv_lt_0_compat; assumption.
        -- apply Rmult_le_compat_r; [left; now apply Rinv_0_lt_compat|].
           pose proof (pow2_ge_0 (r1 + 1e-10)). lra.
  - intros H1 H12.
    rewrite Hf1, Hf2 by lra.
    apply Rmult_le_compat_r; [lra|]. apply Rmult_le_compat_l; [lra|].
    apply Rpower_negative_antitone; [apply Hbase| |lra].
    apply Rmult_le_compat_r; [left; now apply Rinv_0_lt_compat|].
    assert ((r1 + 1e-10) ^ 2 <= (r2 + 1e-10) ^ 2)%R by (apply pow_incr; lra).
    lra.
Qed.

Lemma power_spectral_density_bounds_witness :
  (nth 1 (values (power_spectral_density_von_karman 1 1 sample_grid)) 0
   <= 0.0229 * Rpower (1 / 1 ^ 2) (-11 / 6) * Rpower 1 (-5 / 3))%R.
Proof.
  refine (proj2 (proj1 (@power_spectral_density_bounds 1 1 sample_grid 1 1 _ _ _ _))).
  - lra.
  - lra.
  - simpl. lia.
  - simpl. lia.
Defined.

(** ** More on the conversions *)

Lemma Rpower_quotient_square (A l : R) :
  (0 < A)%R -> (0 < l)%R ->
  Rpower (A / l ^ 2) (-3 / 5) = (Rpower A (-3 / 5) * Rpower l (6 / 5))%R.
Proof.
  intros HA Hl.
  assert (Hll : (0 < l * l)%R) by (apply Rmult_lt_0_compat; exact Hl).
  assert (Hln : ln (A / l ^ 2) = (ln A - (ln l + ln l))%R).
  { replace (A / l ^ 2)%R with (A * / (l * l))%R by (field; lra).
    rewrite ln_mult; [|exact HA|now apply Rinv_0_lt_compat].
    rewrite ln_Rinv by exact Hll. rewrite ln_mult by exact Hl. ring. }
  unfold Rpower. rewrite <- exp_plus, Hln. f_equal. field.
Qed.

(** X15.  The Fried parameter of a given Cn^2 grows with the wavelength to
    the power 6/5: going from one positive wavelength to another multiplies
    it by the ratio of the wavelengths to that power. *)
Theorem fried_parameter_wavelength_scaling (Cn_squared l1 l2 : R) :
  (0 < Cn_squared)%R -> (0 < l1)%R -> (0 < l2)%R ->
  fried_parameter_from_Cn_squared Cn_squared l2
  = (fried_parameter_from_Cn_squared Cn_squared l1 * Rpower (l2 / l1) (6 / 5))%R.
Proof.
  intros Hc H1 H2. pose proof PI_RGT_0 as Hpi.
  assert (HA : (0 < 0.423 * Cn_squared * (2 * PI) ^ 2)%R).
  { apply Rmult_lt_0_compat; [lra|]. apply pow_lt. lra. }
  assert (Hform : forall l, (0 < l)%R ->
            fried_parameter_from_Cn_squared Cn_squared l
            = (Rpower (0.423 * Cn_squared * (2 * PI) ^ 2) (-3 / 5) * Rpower l (6 / 5))%R).
  { intros l Hl. unfold fried_parameter_from_Cn_squared. cbv zeta.
    rewrite <- (Rpower_quotient_square HA Hl). f_equal. field. lra. }
  assert (Hr : Rpower l2 (6 / 5) = (Rpower l1 (6 / 5) * Rpower (l2 / l1) (6 / 5))%R).
  { rewrite Rpower_mult_distr; [|exact H1|apply Rdiv_lt_0_compat; assumption].
    f_equal. field. lra. }
  rewrite (Hform l1 H1), (Hform l2 H2), Hr. ring.
Qed.

Lemma fried_parameter_wavelength_scaling_witness :
  fried_parameter_from_Cn_squared 1 2
  = (fried_parameter_from_Cn_squared 1 1 * Rpower (2 / 1) (6 / 5))%R.
Proof.
  refine (@fried_parameter_wavelength_scaling 1 1 2 _ _ _); lra.
Defined.

Lemma Rpower_negative_decreasing x y z :
  (0 < x)%R -> (x < y)%R -> (z < 0)%R -> (Rpower y z < Rpower x z)%R.
Proof.
  intros Hx Hxy Hz. unfold Rpower. apply exp_increasing.
  pose proof (ln_increasing x y Hx Hxy). nra.
Qed.

(** X16.  A larger Fried parameter means weaker turbulence and sharper
    images: at a positive wavelength both the Cn^2 and the seeing of a
    positive Fried parameter are positive, and strictly smaller for a
    strictly larger parameter. *)
Theorem larger_fried_parameter_is_better (r1 r2 wavelength0 : R) :
  (0 < wavelength0)%R -> (0 < r1)%R -> (r1 < r2)%R ->
  (0 < Cn_squared_from_fried_parameter r2 wavelength0
   < Cn_squared_from_fried_parameter r1 wavelength0)%R /\
  (0 < fried_parameter_to_seeing r2 wavelength0
   < fried_parameter_to_seeing r1 wavelength0)%R.
Proof.
  intros Hw Hr1 Hr12. pose proof PI_RGT_0 as Hpi.
  assert (Hk : (0 < 0.423 * (2 * PI / wavelength0) ^ 2)%R).
  { apply Rmult_lt_0_compat; [lra|]. apply pow_lt. apply Rdiv_lt_0_compat; lra. }
  split.
  - unfold Cn_squared_from_fried_parameter. cbv zeta. split.
    + apply Rdiv_lt_0_compat; [apply Rpower_pos | exact Hk].
    + apply Rmult_lt_compat_r; [now apply Rinv_0_lt_compat|].
      apply Rpower_negative_decreasing; lra.
  - unfold fried_parameter_to_seeing, degrees.
    assert (Hc : (0 < 0.98 * wavelength0)%R) by lra.
    assert (Hinv : (/ r2 < / r1)%R) by (apply Rinv_lt_contravar; [nra | lra]).
    assert (Hpos : (0 < / r2)%R) by (apply Rinv_0_lt_compat; lra).
    assert (Hd : (0 < 180 / PI)%R) by (apply Rdiv_lt_0_compat; lra).
    unfold Rdiv at 1 3. split.
    + apply Rmult_lt_0_compat; [|lra]. apply Rmult_lt_0_compat; [|exact Hd].
      apply Rmult_lt_0_compat; assumption.
    + apply Rmult_lt_compat_r; [lra|]. apply Rmult_lt_compat_r; [exact Hd|].
      apply Rmult_lt_compat_l; assumption.
Qed.

Lemma larger_fried_parameter_is_better_witness :
  (0 < Cn_squared_from_fried_parameter 0.2 default_wavelength
   < Cn_squared_from_fried_parameter 0.1 default_wavelength)%R.
Proof.
  refine (proj1 (@larger_fried_parameter_is_better 0.1 0.2 default_wavelength _ _ _)).
  - unfold default_wavelength. lra.
  - lra.
  - lra.
Defined.

(** ** The aggregate Cn^2, written twice *)

Lemma set_Cn_squared_run w cs X :
  NoDup (_layers (atmosphere w)) ->
  (forall l, In l (_layers (atmosphere w)) ->
     stores_Cn_squared (class_of (layer_at w l))) ->
  comprehension (MultiLayerAtmosphere.layer_Cn_squared w) (_layers (atmosphere w)) = Ok cs ->
  fold_left Rplus cs 0%R <> 0%R ->
  exists w1,
    MultiLayerAtmosphere.set_Cn_squared X w = (w1, Ok tt) /\
    comprehension (MultiLayerAtmosphere.layer_Cn_squared w1) (_layers (atmosphere w))
      = Ok (map (fun c => c / fold_left Rplus cs 0 * X)%R cs) /\
    (forall l c, In l (_layers (atmosphere w)) ->
       MultiLayerAtmosphere.layer_Cn_squared w l = Ok c ->
       MultiLayerAtmosphere.layer_Cn_squared w1 l
       = Ok (c / fold_left Rplus cs 0 * X)%R) /\
    (forall l, class_of (layer_at w1 l) = class_of (layer_at w l)) /\
    atmosphere w1 = atmosphere w.
Proof.
  intros Hnd Hst Ecs HT.
  destruct (@redistribute_loop (fold_left Rplus cs 0%R) X HT
              (_layers (atmosphere w)) w cs Hnd Hst Ecs)
    as (w1 & Hrun & Hcomp & Heach & _ & Hcls & Hatm).
  exists w1. split; [|repeat split; assumption].
  unfold MultiLayerAtmosphere.set_Cn_squared. unfold bind at 1.
  rewrite get_Cn_squared_eq, Ecs. cbn [rbind].
  unfold bind at 1. unfold get at 1. cbv iota beta. exact Hrun.
Qed.

Lemma fold_left_scaled_sum (T X : R) cs :
  T <> 0%R -> fold_left Rplus cs 0%R = T ->
  fold_left Rplus (map (fun c => c / T * X)%R cs) 0%R = X.
Proof.
  intros HT Hsum.
  replace 0%R with (0 / T * X)%R at 1 by (unfold Rdiv; ring).
  rewrite fold_left_scaled, Hsum. field. exact HT.
Qed.

(** X17.  Of two writes of the aggregate [Cn_squared] the last one counts:
    for distinct layers of classes whose setter stores, with an aggregate
    [T] other than 0, writing [X] other than 0 and then [Y] leaves every
    layer at its first value divided by [T] times [Y], as writing [Y] alone
    would, and the aggregate at [Y]; and writing the aggregate that is
    already there changes no layer's value. *)
Theorem Cn_squared_last_write_counts (w : World) (T X Y : R) :
  let layers := _layers (atmosphere w) in
  let w1 := fst (MultiLayerAtmosphere.set_Cn_squared X w) in
  let w2 := fst (MultiLayerAtmosphere.set_Cn_squared Y w1) in
  NoDup layers ->
  (forall l, In l layers -> stores_Cn_squared (class_of (layer_at w l))) ->
  snd (MultiLayerAtmosphere.get_Cn_squared w) = Ok T ->
  T <> 0%R -> X <> 0%R ->
  snd (MultiLayerAtmosphere.set_Cn_squared Y w1) = Ok tt /\
  (forall l c, In l layers ->
     MultiLayerAtmosphere.layer_Cn_squared w l = Ok c ->
     MultiLayerAtmosphere.layer_Cn_squared w2 l = Ok (c / T * Y)%R) /\
  snd (MultiLayerAtmosphere.get_Cn_squared w2) = Ok Y /\
  (X = T ->
   forall l c, In l layers ->
     MultiLayerAtmosphere.layer_Cn_squared w l = Ok c ->
     MultiLayerAtmosphere.layer_Cn_squared w1 l = Ok c).
Proof.
  intros layers w1 w2 Hnd Hst Hget HT HX.
  rewrite get_Cn_squared_eq in Hget. cbn [snd] in Hget. fold layers in Hget.
  destruct (comprehension (MultiLayerAtmosphere.layer_Cn_squared w) layers)
    as [cs|e] eqn:Ecs; cbn [rbind] in Hget; [|discriminate].
  injection Hget as HT'.
  assert (HTs : fold_left Rplus cs 0%R <> 0%R) by now rewrite HT'.
  destruct (@set_Cn_squared_run w cs X Hnd Hst Ecs HTs)
    as (v1 & Hset1 & Hcomp1 & Heach1 & Hcls1 & Hatm1).
  rewrite HT' in Hcomp1, Heach1.
  assert (Hsum1 : fold_left Rplus (map (fun c => c / T * X)%R cs) 0%R = X)
    by now apply fold_left_scaled_sum.
  assert (Ew1 : w1 = v1) by (unfold w1; now rewrite Hset1). 
  assert (HXs : fold_left Rplus (map (fun c => c / T * X)%R cs) 0%R <> 0%R)
    by now rewrite Hsum1.
  destruct (@set_Cn_squared_run v1 (map (fun c => c / T * X)%R cs) Y)
    as (v2 & Hset2 & Hcomp2 & Heach2 & _ & Hatm2); try (rewrite Hatm1; fold layers).
  - exact Hnd.
  - intros l Hl. rewrite Hcls1. now apply Hst.
  - exact Hcomp1.
  - exact HXs.
  - rewrite Hatm1 in Hcomp2, Heach2. fold layers in Hcomp2, Heach2.
    rewrite Hsum1 in Hcomp2, Heach2.
    assert (Ew2 : w2 = v2) by (unfold w2; now rewrite Ew1, Hset2).
    rewrite Ew1, Ew2, Hset2. cbn [snd].
    split; [reflexivity|]. split; [|split].
    + intros l c Hl Hc. rewrite (Heach2 l _ Hl (Heach1 l c Hl Hc)).
      f_equal. field. split; assumption.
    + rewrite get_Cn_squared_eq. cbn [snd]. rewrite Hatm2, Hatm1. fold layers.
      rewrite Hcomp2. cbn [rbind]. f_equal.
      apply fold_left_scaled_sum; assumption.
    + intros HXT l c Hl Hc. rewrite (Heach1 l c Hl Hc). f_equal.
      rewrite HXT. field. exact HT.
Qed.

Lemma Cn_squared_last_write_counts_witness :
  snd (MultiLayerAtmosphere.get_Cn_squared
         (fst (MultiLayerAtmosphere.set_Cn_squared 6
                 (fst (MultiLayerAtmosphere.set_Cn_squared 4
                         (constructed [0; 5000]%Z false))))))
  = Ok 6%R.
Proof.
  refine (proj1 (proj2 (proj2
            (@Cn_squared_last_write_counts (constructed [0; 5000]%Z false)
               (0 + 1 + 1)%R 4%R 6%R _ _ eq_refl _ _)))).
  - repeat constructor; simpl; intuition discriminate.
  - intros l _. apply FixedScreen_stores.
  - lra.
  - lra.
Defined.

(** ** The rebuild is lazy *)

Lemma through_atmosphere step els :
  (forall el wf w, atmosphere (fst (step el wf w)) = atmosphere w) ->
  forall wf w,
    atmosphere (fst (MultiLayerAtmosphere.through step els wf w)) = atmosphere w.
Proof.
  intros Hstep. induction els as [|el els IH]; intros wf w; [reflexivity|].
  cbn [MultiLayerAtmosphere.through]. unfold bind.
  pose proof (Hstep el wf w) as H1.
  destruct (step el wf w) as [w1 [wf1|e]]; cbn [fst] in *.
  - now rewrite IH.
  - exact H1.
Qed.

Lemma element_steps_leave_composite P :
  leaves_composite P ->
  (forall el wf w,
     atmosphere (fst (MultiLayerAtmosphere.element_forward P el wf w)) = atmosphere w) /\
  (forall el wf w,
     atmosphere (fst (MultiLayerAtmosphere.element_backward P el wf w)) = atmosphere w).
Proof.
  intros HP. split; intros [l|g d] wf w;
    cbn [MultiLayerAtmosphere.element_forward MultiLayerAtmosphere.element_backward].
  - rewrite layer_forward_eq. apply phase_applied_layers.
  - apply HP.
  - rewrite layer_backward_eq. apply phase_applied_layers.
  - apply HP.
Qed.

(** X18.  [forward] and [backward] rebuild the chain when, and only when,
    the flag is set: with a propagator that leaves the composite alone and
    a list of layers that is not empty, a traversal of a composite whose
    flag is set ends with the flag clear and the elements rebuilt from the
    layers and the scintillation of the moment, and a traversal of one
    whose flag is clear ends with the composite as it was. *)
Theorem traversal_rebuilds_when_dirty (P : Propagation) (w : World) (wavefront : loc) :
  leaves_composite P ->
  _layers (atmosphere w) <> [] ->
  let after_forward := atmosphere (fst (MultiLayerAtmosphere.forward P wavefront w)) in
  let after_backward := atmosphere (fst (MultiLayerAtmosphere.backward P wavefront w)) in
  (_dirty (atmosphere w) = true ->
   after_forward = atmosphere (rebuilt w) /\ after_backward = atmosphere (rebuilt w) /\
   _dirty after_forward = false /\ elements after_forward = rebuilt_elements w) /\
  (_dirty (atmosphere w) = false ->
   after_forward = atmosphere w /\ after_backward = atmosphere w).
Proof.
  intros HP Hne. cbv zeta.
  destruct (element_steps_leave_composite HP) as [Hf Hb].
  assert (Hfw : atmosphere (fst (MultiLayerAtmosphere.forward P wavefront w))
                = atmosphere (if _dirty (atmosphere w) then rebuilt w else w)).
  { unfold MultiLayerAtmosphere.forward.
    rewrite (@traversal_eq _
               (fun w1 wf => MultiLayerAtmosphere.through
                               (MultiLayerAtmosphere.element_forward P)
                               (elements (atmosphere w1)) wf) wavefront w Hne).
    cbv beta. rewrite (through_atmosphere _ _ Hf). reflexivity. }
  assert (Hbw : atmosphere (fst (MultiLayerAtmosphere.backward P wavefront w))
                = atmosphere (if _dirty (atmosphere w) then rebuilt w else w)).
  { unfold MultiLayerAtmosphere.backward.
    rewrite (@traversal_eq _
               (fun w1 wf => MultiLayerAtmosphere.through
                               (MultiLayerAtmosphere.element_backward P)
                               (rev (elements (atmosphere w1))) wf) wavefront w Hne).
    cbv beta. rewrite (through_atmosphere _ _ Hb). reflexivity. }
  rewrite Hfw, Hbw. split; intros Hd; rewrite Hd; repeat split.
Qed.

Lemma copying_propagation_leaves_composite : leaves_composite copying_propagation.
Proof. intros g d wf w. split; reflexivity. Qed.

Lemma traversal_rebuilds_when_dirty_witness :
  elements (atmosphere
    (fst (MultiLayerAtmosphere.forward copying_propagation 0
            (fst (MultiLayerAtmosphere.set_layers [1] (constructed [0; 5000]%Z true))))))
  = rebuilt_elements
      (fst (MultiLayerAtmosphere.set_layers [1] (constructed [0; 5000]%Z true))).
Proof.
  exact (proj2 (proj2 (proj2
           (proj1 (@traversal_rebuilds_when_dirty copying_propagation
                     (fst (MultiLayerAtmosphere.set_layers [1]
                             (constructed [0; 5000]%Z true))) 0
                     copying_propagation_leaves_composite ltac:(discriminate))
              eq_refl)))).
Defined.
